(** * Floating-point primitives of the OCaml runtime

    A shallow embedding of [kfreebsd/runtime/ocaml/floats.c]: boxing and
    unboxing of doubles, the relational primitives, the three-way
    comparison, classification, and the conversions from and to text.

    A [double] is its 64-bit object representation.  The build-time
    switches of the C file that describe the machine are the fields of
    [target]; the math back-end that the file is compiled against, hosted
    libc or the kernel's fixmath, is a [backend]. *)

From Stdlib Require Import ZArith Lia Bool List String Ascii.
From Stdlib Require Import Floats.SpecFloat.
From stdpp Require Import base option list.

Local Open Scope Z_scope.

(** ** Build configuration *)

Record target := {
  ARCH_SIXTYFOUR : bool;    (* sizeof(value) == 8, otherwise 4 *)
  ARCH_ALIGN_DOUBLE : bool; (* #ifdef ARCH_ALIGN_DOUBLE *)
  ARCH_BIG_ENDIAN : bool;   (* defined(ARCH_BIG_ENDIAN) *)
  ARM_OLD_ABI : bool        (* defined(__arm__) && !defined(__ARM_EABI__) *)
}.

(** ** Doubles as bit patterns *)

Definition double := Z.

Definition is_double (d : double) : Prop := 0 <= d < 2 ^ 64.

Definition hi32 (d : double) : Z := Z.shiftr d 32.
Definition lo32 (d : double) : Z := Z.land d 0xFFFFFFFF.
Definition join32 (h l : Z) : double := Z.lor (Z.shiftl h 32) l.

(** IEEE-754 binary64 fields. *)
Definition sign_bit (d : double) : bool := Z.testbit d 63.
Definition exponent_field (d : double) : Z := Z.land (Z.shiftr d 52) 0x7FF.
Definition mantissa_field (d : double) : Z := Z.land d (Z.ones 52).

Definition prec : Z := 53.
Definition emax : Z := 1024.

(** The number denoted by a bit pattern, as a [spec_float] of the
    standard library's specification of binary64. *)
Definition decode (d : double) : spec_float :=
  let s := sign_bit d in
  let e := exponent_field d in
  let m := mantissa_field d in
  if e =? 0 then
    match m with
    | Zpos p => S754_finite s p (-1074)
    | _ => S754_zero s
    end
  else if e =? 0x7FF then
    if m =? 0 then S754_infinity s else S754_nan
  else
    match m + 2 ^ 52 with
    | Zpos p => S754_finite s p (e - 1075)
    | _ => S754_nan
    end.

Definition sign_mask (s : bool) : Z := if s then Z.shiftl 1 63 else 0.

(** The bit pattern of a [spec_float] in canonical form; the quiet NaN
    with an empty payload stands for NaN. *)
Definition encode (x : spec_float) : double :=
  match x with
  | S754_zero s => sign_mask s
  | S754_infinity s => Z.lor (sign_mask s) (Z.shiftl 0x7FF 52)
  | S754_nan => Z.shiftl 0xFFF 51
  | S754_finite s m e =>
      if Zpos m <? 2 ^ 52 then Z.lor (sign_mask s) (Zpos m)
      else Z.lor (sign_mask s)
                 (Z.lor (Z.shiftl (e + 1075) 52) (Zpos m - 2 ^ 52))
  end.

Definition dbl_is_nan (d : double) : bool :=
  (exponent_field d =? 0x7FF) && negb (mantissa_field d =? 0).
Definition dbl_is_inf (d : double) : bool :=
  (exponent_field d =? 0x7FF) && (mantissa_field d =? 0).

Definition plus_zero : double := 0.
Definition minus_zero : double := 0x8000000000000000.
Definition one : double := 0x3FF0000000000000.
Definition plus_infinity : double := 0x7FF0000000000000.
Definition minus_infinity : double := 0xFFF0000000000000.
Definition quiet_nan : double := 0x7FF8000000000000.
Definition min_subnormal : double := 1.

(** ** The two math back-ends *)

Inductive c99_class := FP_NAN | FP_INFINITE | FP_ZERO | FP_SUBNORMAL | FP_NORMAL.

(** A hosted build: [__double] is the IEEE-754 double of the compiler,
    and math.h, stdio.h and stdlib.h are included. *)
Record libc := {
  strtod : string -> double * nat;       (* the value and [end - nptr] *)
  sprintf : string -> double -> string;  (* the text written to [dest] *)
  HAS_BROKEN_PRINTF : bool;              (* #ifdef HAS_BROKEN_PRINTF *)
  HAVE_FPCLASSIFY : bool                 (* defined(fpclassify) &&
                                            !defined(__CYGWIN32__) &&
                                            !defined(__MINGW32__) *)
}.

(** A kernel build, [defined(__FreeBSD__) && defined(_KERNEL)]: only
    fixmath.h is included.  The header is not part of the sources, so the
    C relational operators on its [__double] are fields as well. *)
Record fixmath := {
  fix_eq : double -> double -> bool;     (* x == y *)
  fix_lt : double -> double -> bool;     (* x <  y *)
  fix_le : double -> double -> bool;     (* x <= y *)
  fixpt_strtod : string -> double * nat;
  fixpt_to_str : double -> Z -> string
}.

Inductive backend :=
  | Hosted (L : libc)
  | Kernel (F : fixmath).

(** IEEE-754 relational operators of a hosted C compiler. *)
Definition ieee_eq (x y : double) : bool := SFeqb (decode x) (decode y).
Definition ieee_lt (x y : double) : bool := SFltb (decode x) (decode y).
Definition ieee_le (x y : double) : bool := SFleb (decode x) (decode y).

(** The C relational operators on [__double].  Where the C file compares
    with the constant [0], the operand is the bit pattern 0: the integer
    0 converts to +0.0 and to the fixed-point zero alike. *)
Definition op_eq (B : backend) : double -> double -> bool :=
  match B with Hosted _ => ieee_eq | Kernel F => fix_eq F end.
Definition op_lt (B : backend) : double -> double -> bool :=
  match B with Hosted _ => ieee_lt | Kernel F => fix_lt F end.
Definition op_le (B : backend) : double -> double -> bool :=
  match B with Hosted _ => ieee_le | Kernel F => fix_le F end.
Definition op_ne (B : backend) (x y : double) : bool := negb (op_eq B x y).
Definition op_gt (B : backend) (x y : double) : bool := op_lt B y x.
Definition op_ge (B : backend) (x y : double) : bool := op_le B y x.

(** The classification macros of C99's math.h on IEEE-754 doubles. *)
Definition fpclassify (d : double) : c99_class :=
  match decode d with
  | S754_nan => FP_NAN
  | S754_infinity _ => FP_INFINITE
  | S754_zero _ => FP_ZERO
  | S754_finite _ m _ =>
      if Zpos (digits2_pos m) =? prec then FP_NORMAL else FP_SUBNORMAL
  end.

Definition isnan (d : double) : bool :=
  match decode d with S754_nan => true | _ => false end.
Definition isfinite (d : double) : bool :=
  match decode d with S754_nan | S754_infinity _ => false | _ => true end.

(** ** Values, heap blocks and the monad of primitives *)

(** A [value] is an immediate integer or a pointer to a heap block. *)
Inductive value :=
  | Val_long (n : Z)
  | Ptr (a : nat).

Definition Val_int (n : Z) : value := Val_long n.
Definition Val_bool (b : bool) : value := Val_int (if b then 1 else 0).

Definition Double_tag : Z := 253.

Inductive block :=
  | Words (tag : Z) (fields : list Z)   (* header and fields of sizeof(value) *)
  | Bytes (s : string).                 (* a String_tag block *)

Record runtime := {
  heap : list block;      (* the address of a block is its index *)
  stat_live : nat         (* blocks from caml_stat_alloc not yet freed *)
}.

Inductive caml_exception :=
  | Failure (msg : string).

Inductive outcome (A : Type) : Type :=
  | Done (a : A) (st : runtime)
  | Raise (e : caml_exception) (st : runtime)
  | Undefined.
Arguments Done {A} a st.
Arguments Raise {A} e st.
Arguments Undefined {A}.

Definition prim (A : Type) : Type := runtime -> outcome A.

#[global] Instance prim_ret : MRet prim := fun A a st => Done a st.
#[global] Instance prim_bind : MBind prim := fun A B f m st =>
  match m st with
  | Done a st' => f a st'
  | Raise e st' => Raise e st'
  | Undefined => Undefined
  end.

Definition undefined {A} : prim A := fun _ => Undefined.
Definition caml_failwith {A} (msg : string) : prim A :=
  fun st => Raise (Failure msg) st.

Definition lift_option {A} (o : option A) : prim A :=
  match o with Some a => mret a | None => undefined end.

Definition Long_val (v : value) : prim Z :=
  match v with Val_long n => mret n | Ptr _ => undefined end.

Definition read_block (v : value) : prim block := fun st =>
  match v with
  | Ptr a => match heap st !! a with
             | Some b => Done b st
             | None => Undefined
             end
  | Val_long _ => Undefined
  end.

(** [Field(v, i)] as an rvalue. *)
Definition Field (v : value) (i : nat) : prim Z :=
  b ← read_block v;
  match b with
  | Words _ fs => lift_option (fs !! i)
  | Bytes _ => undefined
  end.

(** [Field(v, i) = w]. *)
Definition Store_field (v : value) (i : nat) (w : Z) : prim unit := fun st =>
  match v with
  | Ptr a =>
      match heap st !! a with
      | Some (Words t fs) =>
          if decide (i < length fs)%nat
          then Done tt {| heap := <[a := Words t (<[i := w]> fs)]> (heap st);
                          stat_live := stat_live st |}
          else Undefined
      | _ => Undefined
      end
  | Val_long _ => Undefined
  end.

(** Modelled from the spec: [Alloc_small] of memory.h, the host-provided
    allocator entry point.  It hands out a fresh block whose fields are
    not initialised (zero here); allocation always succeeds. *)
Definition Alloc_small (wosize : nat) (tag : Z) : prim value := fun st =>
  Done (Ptr (length (heap st)))
       {| heap := heap st ++ [Words tag (replicate wosize 0)];
          stat_live := stat_live st |}.

(** Modelled from the spec: [caml_copy_string] of alloc.h, a fresh string
    block holding a copy of a C string. *)
Definition caml_copy_string (s : string) : prim value := fun st =>
  Done (Ptr (length (heap st)))
       {| heap := heap st ++ [Bytes s]; stat_live := stat_live st |}.

Definition String_val (v : value) : prim string :=
  b ← read_block v;
  match b with
  | Bytes s => mret s
  | Words _ _ => undefined
  end.

Definition caml_string_length (v : value) : prim Z :=
  s ← String_val v; mret (Z.of_nat (String.length s)).

Definition caml_stat_alloc : prim unit := fun st =>
  Done tt {| heap := heap st; stat_live := S (stat_live st) |}.
Definition caml_stat_free : prim unit := fun st =>
  Done tt {| heap := heap st; stat_live := pred (stat_live st) |}.

(** ** Boxing and unboxing *)

Section Boxing.
Variable T : target.

(** [sizeof(__double) / sizeof(value)]. *)
Definition Double_wosize : nat := if ARCH_SIXTYFOUR T then 1%nat else 2%nat.

(** The 32-bit half that comes first in memory. *)
Definition high_word_first : bool := ARCH_BIG_ENDIAN T || ARM_OLD_ABI T.

(** [union { value v[2]; __double d; } buffer]: the members [v] seen
    after [buffer.d = dbl]. *)
Definition union_v (dbl : double) : Z * Z :=
  if ARCH_SIXTYFOUR T then (dbl, 0)
  else if high_word_first then (hi32 dbl, lo32 dbl)
  else (lo32 dbl, hi32 dbl).

(** The member [d] seen after [v[0]] and [v[1]] were written. *)
Definition union_d (v0 v1 : Z) : double :=
  if ARCH_SIXTYFOUR T then v0
  else if high_word_first then join32 v0 v1
  else join32 v1 v0.

Definition caml_Double_val (val : value) : prim double :=
  v0 ← Field val 0;
  v1 ← Field val 1;
  mret (union_d v0 v1).

Definition caml_Store_double_val (val : value) (dbl : double) : prim unit :=
  let buffer := union_v dbl in
  Store_field val 0 (fst buffer);;
  Store_field val 1 (snd buffer).

(** Modelled from the spec: the [Double_val] and [Store_double_val]
    macros of mlvalues.h.  With [ARCH_ALIGN_DOUBLE] they are the two
    functions above, otherwise a direct access to the double stored at
    the address [v], through a pointer cast. *)
Definition Double_val (v : value) : prim double :=
  if ARCH_ALIGN_DOUBLE T then caml_Double_val v
  else if ARCH_SIXTYFOUR T then Field v 0
  else w0 ← Field v 0; w1 ← Field v 1; mret (union_d w0 w1).

Definition Store_double_val (v : value) (d : double) : prim unit :=
  if ARCH_ALIGN_DOUBLE T then caml_Store_double_val v d
  else if ARCH_SIXTYFOUR T then Store_field v 0 d
  else Store_field v 0 (fst (union_v d));; Store_field v 1 (snd (union_v d)).

Definition caml_copy_double (d : double) : prim value :=
  res ← Alloc_small Double_wosize Double_tag;
  Store_double_val res d;;
  mret res.

(** [v] is a boxed float holding [d] in state [st]. *)
Definition boxed (st : runtime) (v : value) (d : double) : Prop :=
  Double_val v st = Done d st.
End Boxing.

(** ** Comparison primitives *)

Section Comparison.
Variable T : target.
Variable B : backend.

Definition caml_eq_float (f g : value) : prim value :=
  x ← Double_val T f; y ← Double_val T g;
  match B with
  | Kernel _ => mret (Val_bool (op_eq B x y))
  | Hosted _ => mret (Val_bool (op_eq B x y))
  end.

Definition caml_neq_float (f g : value) : prim value :=
  x ← Double_val T f; y ← Double_val T g;
  match B with
  | Kernel _ => mret (Val_bool (op_ne B x y))
  | Hosted _ => mret (Val_bool (op_ne B x y))
  end.

Definition caml_le_float (f g : value) : prim value :=
  x ← Double_val T f; y ← Double_val T g;
  match B with
  | Kernel _ => mret (Val_bool (op_le B x y))
  | Hosted _ => mret (Val_bool (op_le B x y))
  end.

Definition caml_lt_float (f g : value) : prim value :=
  x ← Double_val T f; y ← Double_val T g;
  match B with
  | Kernel _ => mret (Val_bool (op_le B x y))
  | Hosted _ => mret (Val_bool (op_lt B x y))
  end.

Definition caml_ge_float (f g : value) : prim value :=
  x ← Double_val T f; y ← Double_val T g;
  match B with
  | Kernel _ => mret (Val_bool (op_ge B x y))
  | Hosted _ => mret (Val_bool (op_ge B x y))
  end.

Definition caml_gt_float (f g : value) : prim value :=
  x ← Double_val T f; y ← Double_val T g;
  match B with
  | Kernel _ => mret (Val_bool (op_gt B x y))
  | Hosted _ => mret (Val_bool (op_gt B x y))
  end.

(** The two tests that would order a NaN below every other float are
    compiled out ([#if 0]) in this file. *)
Definition caml_float_compare (vf vg : value) : prim value :=
  f ← Double_val T vf;
  g ← Double_val T vg;
  if op_eq B f g then mret (Val_int 0)
  else if op_lt B f g then mret (Val_int (-1))
  else if op_gt B f g then mret (Val_int 1)
  else mret (Val_int 0).
End Comparison.

(** ** Classification *)

(** [enum { FP_normal, FP_subnormal, FP_zero, FP_infinite, FP_nan }]. *)
Inductive fp_class := FP_normal | FP_subnormal | FP_zero | FP_infinite | FP_nan.

Definition fp_code (c : fp_class) : Z :=
  match c with
  | FP_normal => 0
  | FP_subnormal => 1
  | FP_zero => 2
  | FP_infinite => 3
  | FP_nan => 4
  end.

Section Classification.
Variable T : target.
Variable B : backend.

(** The two 32-bit halves of a double in the order they lie in memory. *)
Definition double_halves (d : double) : Z * Z :=
  if high_word_first T then (hi32 d, lo32 d) else (lo32 d, hi32 d).

(** [union double_as_two_int32]: the members [i.h] and [i.l] seen after
    [u.d = d]. *)
Definition double_as_two_int32 (d : double) : Z * Z :=
  let '(w0, w1) := double_halves d in
  if ARCH_BIG_ENDIAN T || ARM_OLD_ABI T
  then (w0, w1)     (* struct { uint32 h; uint32 l; } i; *)
  else (w1, w0).    (* struct { uint32 l; uint32 h; } i; *)

Definition classify_bits (d : double) : fp_class :=
  let '(h, l) := double_as_two_int32 d in
  let l := Z.lor l (Z.land h 0xFFFFF) in
  let h := Z.land h 0x7FF00000 in
  if Z.lor h l =? 0 then FP_zero
  else if h =? 0 then FP_subnormal
  else if h =? 0x7FF00000 then
    if l =? 0 then FP_infinite else FP_nan
  else FP_normal.

Definition caml_classify_float (vd : value) : prim value :=
  match B with
  | Hosted L =>
      if HAVE_FPCLASSIFY L then
        d ← Double_val T vd;
        match fpclassify d with
        | FP_NAN => mret (Val_int (fp_code FP_nan))
        | FP_INFINITE => mret (Val_int (fp_code FP_infinite))
        | FP_ZERO => mret (Val_int (fp_code FP_zero))
        | FP_SUBNORMAL => mret (Val_int (fp_code FP_subnormal))
        | FP_NORMAL => mret (Val_int (fp_code FP_normal))
        end
      else
        d ← Double_val T vd;
        mret (Val_int (fp_code (classify_bits d)))
  | Kernel _ =>
      d ← Double_val T vd;
      if op_eq B d 0 then mret (Val_int (fp_code FP_zero))
      else mret (Val_int (fp_code FP_normal))
  end.
End Classification.

(** The classification that the IEEE-754 layout prescribes, stated on
    the exponent and mantissa fields. *)
Definition classify_spec (d : double) : fp_class :=
  let e := exponent_field d in
  let m := mantissa_field d in
  if (e =? 0) && (m =? 0) then FP_zero
  else if (e =? 0) && negb (m =? 0) then FP_subnormal
  else if (e =? 0x7FF) && (m =? 0) then FP_infinite
  else if (e =? 0x7FF) && negb (m =? 0) then FP_nan
  else FP_normal.

(** ** Characters and C strings *)

Definition char_code (c : ascii) : Z := Z.of_N (N_of_ascii c).

Definition NUL : ascii := Ascii.zero.

Definition isspace (c : ascii) : bool :=
  (char_code c =? 32) || ((9 <=? char_code c) && (char_code c <=? 13)).
Definition isdigit (c : ascii) : bool :=
  (48 <=? char_code c) && (char_code c <=? 57).
Definition isalpha (c : ascii) : bool :=
  ((65 <=? char_code c) && (char_code c <=? 90))
  || ((97 <=? char_code c) && (char_code c <=? 122)).
Definition digit_value (c : ascii) : Z := char_code c - 48.
Definition xdigit_value (c : ascii) : option Z :=
  if isdigit c then Some (char_code c - 48)
  else if (97 <=? char_code c) && (char_code c <=? 102) then Some (char_code c - 87)
  else if (65 <=? char_code c) && (char_code c <=? 70) then Some (char_code c - 55)
  else None.
Definition tolower (c : ascii) : ascii :=
  if (65 <=? char_code c) && (char_code c <=? 90)
  then ascii_of_N (Z.to_N (char_code c + 32)) else c.

(** The C string that starts at the first byte of a buffer: the bytes
    before the first NUL. *)
Fixpoint c_string (buf : string) : string :=
  match buf with
  | EmptyString => EmptyString
  | String c rest => if Ascii.eqb c NUL then EmptyString else String c (c_string rest)
  end.

(** ** The string-to-double parser of the C library

    [strtod] is not code of this file.  [c_strtod] follows ISO C
    (7.20.1.3) in the "C" locale: white space, an optional sign, then a
    decimal or hexadecimal floating constant, INF, INFINITY or NAN; the
    value is rounded to nearest-even.  It returns the value and the number
    of characters consumed, 0 when there is no conversion. *)

Fixpoint skip_space (s : string) (n : nat) : nat * string :=
  match s with
  | String c rest => if isspace c then skip_space rest (S n) else (n, s)
  | EmptyString => (n, s)
  end.

Definition read_sign (s : string) : bool * nat * string :=
  match s with
  | String c rest =>
      if Ascii.eqb c "-" then (true, 1%nat, rest)
      else if Ascii.eqb c "+" then (false, 1%nat, rest)
      else (false, 0%nat, s)
  | EmptyString => (false, 0%nat, s)
  end.

Fixpoint read_digits (s : string) (acc : Z) (n : nat) : Z * nat * string :=
  match s with
  | String c rest =>
      if isdigit c then read_digits rest (10 * acc + digit_value c) (S n)
      else (acc, n, s)
  | EmptyString => (acc, n, s)
  end.

Fixpoint read_xdigits (s : string) (acc : Z) (n : nat) : Z * nat * string :=
  match s with
  | String c rest =>
      match xdigit_value c with
      | Some v => read_xdigits rest (16 * acc + v) (S n)
      | None => (acc, n, s)
      end
  | EmptyString => (acc, n, s)
  end.

(** An exponent part: the marker, an optional sign and at least one
    digit; nothing is consumed otherwise. *)
Definition read_exponent (marker : ascii) (s : string) : Z * nat :=
  match s with
  | String c rest =>
      if Ascii.eqb (tolower c) marker then
        let '(neg, k, r1) := read_sign rest in
        let '(v, n, _) := read_digits r1 0 0 in
        if (n =? 0)%nat then (0, 0%nat)
        else (if neg then - v else v, (1 + k + n)%nat)
      else (0, 0%nat)
  | EmptyString => (0, 0%nat)
  end.

(** Digits with an optional radix point: the integer made of all the
    digits, the number of digits in front of and behind the point, the
    length of the point and the rest. *)
Definition read_mantissa (digits : string -> Z -> nat -> Z * nat * string)
    (s : string) : Z * nat * nat * nat * string :=
  let '(i, ni, r1) := digits s 0 0%nat in
  match r1 with
  | String c r2 =>
      if Ascii.eqb c "." then
        let '(m, nf, r3) := digits r2 i 0%nat in (m, ni, nf, 1%nat, r3)
      else (i, ni, 0%nat, 0%nat, r1)
  | EmptyString => (i, ni, 0%nat, 0%nat, r1)
  end.

(** [m * 10 ^ e], rounded to binary64. *)
Definition decimal_value (neg : bool) (m e : Z) : spec_float :=
  match m with
  | Zpos p =>
      if 0 <=? e
      then binary_normalize prec emax (if neg then - (m * 10 ^ e) else m * 10 ^ e) 0 neg
      else SFdiv prec emax (S754_finite neg p 0)
                           (S754_finite false (Z.to_pos (10 ^ (- e))) 0)
  | _ => S754_zero neg
  end.

(** [m * 2 ^ e], rounded to binary64. *)
Definition binary_value (neg : bool) (m e : Z) : spec_float :=
  binary_normalize prec emax (if neg then - m else m) e neg.

Definition read_decimal (neg : bool) (s : string) : option (spec_float * nat) :=
  let '(m, ni, nf, nd, r) := read_mantissa read_digits s in
  if (ni + nf =? 0)%nat then None
  else
    let '(e, ne) := read_exponent "e" r in
    Some (decimal_value neg m (e - Z.of_nat nf), (ni + nd + nf + ne)%nat).

Definition read_hexadecimal (neg : bool) (s : string) : option (spec_float * nat) :=
  match s with
  | String c0 (String c1 r0) =>
      if Ascii.eqb c0 "0" && Ascii.eqb (tolower c1) "x" then
        let '(m, ni, nf, nd, r) := read_mantissa read_xdigits r0 in
        if (ni + nf =? 0)%nat then None
        else
          let '(e, ne) := read_exponent "p" r in
          Some (binary_value neg m (e - 4 * Z.of_nat nf), (2 + ni + nd + nf + ne)%nat)
      else None
  | _ => None
  end.

Fixpoint prefix_nocase (p s : string) : option string :=
  match p, s with
  | EmptyString, _ => Some s
  | String a p', String b s' =>
      if Ascii.eqb a (tolower b) then prefix_nocase p' s' else None
  | String _ _, EmptyString => None
  end.

Fixpoint skip_nchars (s : string) (n : nat) : nat * string :=
  match s with
  | String c rest =>
      if isdigit c || isalpha c || Ascii.eqb c "_" then skip_nchars rest (S n)
      else (n, s)
  | EmptyString => (n, s)
  end.

(** The optional [(n-char-sequence)] behind NAN. *)
Definition nan_suffix (s : string) : nat :=
  match s with
  | String c rest =>
      if Ascii.eqb c "(" then
        let '(n, r) := skip_nchars rest 0 in
        match r with
        | String c' _ => if Ascii.eqb c' ")" then (n + 2)%nat else 0%nat
        | EmptyString => 0%nat
        end
      else 0%nat
  | EmptyString => 0%nat
  end.

Definition read_special (neg : bool) (s : string) : option (spec_float * nat) :=
  match prefix_nocase "infinity" s with
  | Some _ => Some (S754_infinity neg, 8%nat)
  | None =>
      match prefix_nocase "inf" s with
      | Some _ => Some (S754_infinity neg, 3%nat)
      | None =>
          match prefix_nocase "nan" s with
          | Some r => Some (S754_nan, (3 + nan_suffix r)%nat)
          | None => None
          end
      end
  end.

Definition read_subject (neg : bool) (s : string) : option (spec_float * nat) :=
  match read_hexadecimal neg s with
  | Some r => Some r
  | None =>
      match read_decimal neg s with
      | Some r => Some r
      | None => read_special neg s
      end
  end.

Definition c_strtod (nptr : string) : double * nat :=
  let '(nw, r0) := skip_space nptr 0 in
  let '(neg, ns, r1) := read_sign r0 in
  match read_subject neg r1 with
  | Some (x, n) => (encode x, (nw + ns + n)%nat)
  | None => (plus_zero, 0%nat)
  end.

(** [atoi] of the C library, for inputs whose value fits an [int]. *)
Definition atoi (s : string) : Z :=
  let '(_, r0) := skip_space s 0 in
  let '(neg, _, r1) := read_sign r0 in
  let '(v, _, _) := read_digits r1 0 0 in
  if neg then - v else v.

(** ** Conversions from and to text *)

(** [while (len--) { char c = *src++; if (c != '_') *dst++ = c; }]
    over the bytes of [s]; [src] is the offset of the read pointer in [s]
    and [dst] the bytes written to the buffer so far.  A read outside the
    string is undefined. *)
Fixpoint strip_loop (s : string) (src : Z) (len : nat) (dst : string)
  : option string :=
  match len with
  | O => Some dst
  | S len' =>
      if src <? 0 then None
      else
        match String.get (Z.to_nat src) s with
        | Some c =>
            strip_loop s (src + 1) len'
              (if negb (Ascii.eqb c "_") then (dst ++ String c EmptyString)%string
               else dst)
        | None => None
        end
  end.

Definition MAX_DIGITS : Z := 350.

(** The first loop of [caml_format_float]: the value of [prec] and the
    position [p] at which the loop stops. *)
Fixpoint scan_width (p : string) (prec : Z) : Z * string :=
  match p with
  | EmptyString => (prec, p)
  | String c rest =>
      if Ascii.eqb c NUL then (prec, p)
      else if (char_code "0" <=? char_code c) && (char_code c <=? char_code "9")
      then (let i := atoi p + MAX_DIGITS in if i >? prec then i else prec, p)
      else scan_width rest prec
  end.

(** The second loop, which goes on from that position. *)
Fixpoint scan_precision (p : string) (prec : Z) : Z :=
  match p with
  | EmptyString => prec
  | String c rest =>
      if Ascii.eqb c NUL then prec
      else if Ascii.eqb c "."
      then (let i := atoi rest + MAX_DIGITS in if i >? prec then i else prec)
      else scan_precision rest prec
  end.

Section Text.
Variable T : target.
Variable B : backend.

Definition wordsize : Z := if ARCH_SIXTYFOUR T then 64 else 32.

(** Conversion to [mlsize_t], an unsigned integer of the size of a
    [value]. *)
Definition to_mlsize (n : Z) : Z := n mod 2 ^ wordsize.

(** An [intnat], a signed integer of the size of a [value]. *)
Definition is_intnat (n : Z) : Prop :=
  - 2 ^ (wordsize - 1) <= n < 2 ^ (wordsize - 1).

(** The parser the build links. *)
Definition native_strtod : string -> double * nat :=
  match B with
  | Kernel F => fixpt_strtod F
  | Hosted L => strtod L
  end.

(** The code between the computation of [len] and the end of the
    function, which the two parsing primitives share word for word.
    [src] is the offset of the first byte to read. *)
Definition parse_slice (s : string) (src : Z) (len : Z) : prim value :=
  let on_heap := negb (len <? 64) in     (* sizeof(parse_buffer) *)
  (if on_heap then caml_stat_alloc else mret tt);;
  dst ← lift_option (strip_loop s src (Z.to_nat len) EmptyString);
  if (String.length dst =? 0)%nat then
    (* error: *)
    (if on_heap then caml_stat_free else mret tt);;
    caml_failwith "float_of_string"
  else
    let '(d, e) := native_strtod (c_string dst) in
    if negb (e =? String.length dst)%nat then
      (* error: *)
      (if on_heap then caml_stat_free else mret tt);;
      caml_failwith "float_of_string"
    else
      (if on_heap then caml_stat_free else mret tt);;
      caml_copy_double T d.

Definition caml_float_of_substring (vs idx l : value) : prim value :=
  flen ← Long_val l;
  fidx ← Long_val idx;
  lenvs ← caml_string_length vs;
  let len :=
    if (fidx >=? 0) && (to_mlsize fidx <? lenvs) && (flen >? 0)
       && (to_mlsize flen <=? to_mlsize (lenvs - to_mlsize fidx))
    then to_mlsize flen else 0 in
  s ← String_val vs;
  parse_slice s fidx len.

Definition caml_float_of_string (vs : value) : prim value :=
  len ← caml_string_length vs;
  s ← String_val vs;
  parse_slice s 0 len.

(** The part of [caml_format_float] that calls the native formatter. *)
Definition format_with_printf (fmt : value) (d : double) : prim value :=
  f ← String_val fmt;
  let '(prec, p) := scan_width f MAX_DIGITS in
  let prec := scan_precision p prec in
  let on_heap := negb (prec <? MAX_DIGITS + 20) in  (* sizeof(format_buffer) *)
  (if on_heap then caml_stat_alloc else mret tt);;
  let dest :=
    match B with
    | Kernel F =>
        fixpt_to_str F d (if prec >? MAX_DIGITS then prec - MAX_DIGITS else MAX_DIGITS)
    | Hosted L => sprintf L (c_string f) d
    end in
  res ← caml_copy_string dest;
  (if on_heap then caml_stat_free else mret tt);;
  mret res.

Definition caml_format_float (fmt arg : value) : prim value :=
  d ← Double_val T arg;
  match B with
  | Hosted L =>
      if HAS_BROKEN_PRINTF L then
        if isfinite d then format_with_printf fmt d
        else if isnan d then caml_copy_string "nan"
        else if op_gt B d 0 then caml_copy_string "inf"
        else caml_copy_string "-inf"
      else format_with_printf fmt d
  | Kernel _ => format_with_printf fmt d
  end.
End Text.

(** ** Vocabulary of the statements *)

(** The assertion of [caml_Double_val] and [caml_Store_double_val]:
    [sizeof(__double) == 2 * sizeof(value)]. *)
Definition assert_double_size (T : target) : Prop :=
  ARCH_ALIGN_DOUBLE T = true -> ARCH_SIXTYFOUR T = false.

(** [caml_float_compare] on [vf] and [vg] returns [Val_int r] and leaves
    the state alone. *)
Definition compare_returns (T : target) (B : backend) (st : runtime)
    (vf vg : value) (r : Z) : Prop :=
  caml_float_compare T B vf vg st = Done (Val_int r) st.

(** Transitivity of the order that the three-way comparison induces, at
    three boxed floats. *)
Definition compare_transitive_at (T : target) (B : backend) (st : runtime)
    (vf vg vh : value) : Prop :=
  forall a b c,
    compare_returns T B st vf vg a -> compare_returns T B st vg vh b ->
    compare_returns T B st vf vh c ->
    a <= 0 -> b <= 0 -> c <= 0.

(** [s] without its digit-group separators, in the words of the
    specification: every ['_'] is deleted, every other character is kept,
    in order. *)
Definition delete_separators (s : string) : string :=
  string_of_list_ascii
    (List.filter (fun c => negb (Ascii.eqb c "_")) (list_ascii_of_string s)).

(** The result of a primitive is a string block that holds [s]. *)
Definition returns_string (o : outcome value) (s : string) : Prop :=
  exists v st', o = Done v st' /\ String_val v st' = Done s st'.

(** The result of a primitive is a boxed float that holds [d]. *)
Definition returns_double (T : target) (o : outcome value) (d : double) : Prop :=
  exists v st', o = Done v st' /\ boxed T st' v d.

(** The primitive raises [Failure msg] and leaves the state as it was. *)
Definition fails_with (o : outcome value) (msg : string) (st : runtime) : Prop :=
  o = Raise (Failure msg) st.

(** ** Concrete targets, back-ends and states *)

Definition amd64 : target :=
  {| ARCH_SIXTYFOUR := true; ARCH_ALIGN_DOUBLE := false;
     ARCH_BIG_ENDIAN := false; ARM_OLD_ABI := false |}.

Definition sparc32 : target :=
  {| ARCH_SIXTYFOUR := false; ARCH_ALIGN_DOUBLE := true;
     ARCH_BIG_ENDIAN := true; ARM_OLD_ABI := false |}.

Definition mipsel32 : target :=
  {| ARCH_SIXTYFOUR := false; ARCH_ALIGN_DOUBLE := true;
     ARCH_BIG_ENDIAN := false; ARM_OLD_ABI := false |}.

(** A C library for the hosted build.  Formatting of finite numbers is
    outside this development: [sprintf] echoes its format. *)
Definition c_library (broken_printf have_fpclassify : bool) : libc :=
  {| strtod := c_strtod;
     sprintf := fun fmt _ => fmt;
     HAS_BROKEN_PRINTF := broken_printf;
     HAVE_FPCLASSIFY := have_fpclassify |}.

Definition hosted : backend := Hosted (c_library false true).

(** The value of a bit pattern read as a two's-complement integer. *)
Definition signed64 (d : double) : Z := (d + 2 ^ 63) mod 2 ^ 64 - 2 ^ 63.

(** A fixmath whose [__double] is a scaled 64-bit integer, so that the
    relational operators are those of [int64_t].  Its text conversions
    are outside this development: the parser converts nothing and the
    formatter writes nothing. *)
Definition scaled_int64 : fixmath :=
  {| fix_eq := fun x y => signed64 x =? signed64 y;
     fix_lt := fun x y => signed64 x <? signed64 y;
     fix_le := fun x y => signed64 x <=? signed64 y;
     fixpt_strtod := fun _ => (0, 0%nat);
     fixpt_to_str := fun _ _ => EmptyString |}.

Definition kernel : backend := Kernel scaled_int64.

Definition empty_runtime : runtime := {| heap := []; stat_live := 0 |}.

(** A 64-bit heap that holds the given doubles, boxed, at the addresses
    0, 1, ... *)
Definition heap_of_doubles (ds : list double) : runtime :=
  {| heap := map (fun d => Words Double_tag [d]) ds; stat_live := 0 |}.

(** A heap that holds the string [s] at address 0. *)
Definition heap_of_string (s : string) : runtime :=
  {| heap := [Bytes s]; stat_live := 0 |}.

(** The integer that [caml_float_compare] returns for each result of the
    IEEE-754 comparison of its operands; [None] is "unordered". *)
Definition compare_code (c : option comparison) : Z :=
  match c with
  | Some Lt => -1
  | Some Gt => 1
  | Some Eq | None => 0
  end.

(** Three boxed floats for the comparison: 1.0, a NaN and 0.0. *)
Definition one_nan_zero : runtime := heap_of_doubles [one; quiet_nan; plus_zero].

(** One boxed float on a 64-bit heap. *)
Definition heap_of_double (d : double) : runtime := heap_of_doubles [d].

(** The code that [caml_classify_float] returns for each result of C99's
    [fpclassify]. *)
Definition class_of_c99 (c : c99_class) : fp_class :=
  match c with
  | FP_NAN => FP_nan
  | FP_INFINITE => FP_infinite
  | FP_ZERO => FP_zero
  | FP_SUBNORMAL => FP_subnormal
  | FP_NORMAL => FP_normal
  end.

(** [caml_classify_float] on [vd] returns the code of the class [c] and
    leaves the state alone. *)
Definition classify_returns (T : target) (B : backend) (st : runtime)
    (vd : value) (c : fp_class) : Prop :=
  caml_classify_float T B vd st = Done (Val_int (fp_code c)) st.

(** What both parsing primitives do with the cleaned text once the
    scratch buffer holds it, the management of the buffer aside: fail on
    an empty text, hand the text to the native parser, fail unless the
    parser stops at the end of the text, box the number otherwise. *)
Definition convert_cleaned (T : target) (B : backend) (cleaned : string)
  : prim value :=
  if (String.length cleaned =? 0)%nat then caml_failwith "float_of_string"
  else
    let '(d, e) := native_strtod B (c_string cleaned) in
    if negb (e =? String.length cleaned)%nat then caml_failwith "float_of_string"
    else caml_copy_double T d.

(** [(idx, len)] describes a non-empty slice of [s]. *)
Definition valid_slice (s : string) (idx len : Z) : Prop :=
  0 <= idx < Z.of_nat (String.length s) /\
  0 < len <= Z.of_nat (String.length s) - idx.

(** The slice of [s] that starts at [idx] and has [len] bytes. *)
Definition slice (s : string) (idx len : Z) : string :=
  String.substring (Z.to_nat idx) (Z.to_nat len) s.

(** The length of a string fits [mlsize_t]. *)
Definition string_fits (T : target) (s : string) : Prop :=
  Z.of_nat (String.length s) < 2 ^ wordsize T.

(** A heap with one boxed float at address 0 and a format string at
    address 1, on a 64-bit target. *)
Definition heap_of_format (d : double) (fmt : string) : runtime :=
  {| heap := [Words Double_tag [d]; Bytes fmt]; stat_live := 0 |}.

(** Strings of white space, strings without white space, and strings
    whose last character is white space. *)
Fixpoint all_space (s : string) : bool :=
  match s with
  | EmptyString => true
  | String c rest => isspace c && all_space rest
  end.

Fixpoint no_space (s : string) : bool :=
  match s with
  | EmptyString => true
  | String c rest => negb (isspace c) && no_space rest
  end.

Fixpoint ends_with_space (s : string) : bool :=
  match s with
  | EmptyString => false
  | String c EmptyString => isspace c
  | String _ rest => ends_with_space rest
  end.

(** A heap that holds the given strings at the addresses 0, 1, ... *)
Definition heap_of_strings (l : list string) : runtime :=
  {| heap := map Bytes l; stat_live := 0 |}.

(** The text "3.14", the same behind a blank, and the same in front of
    a blank. *)
Definition pi_texts : runtime := heap_of_strings ["3.14"; " 3.14"; "3.14 "]%string.

(** ** Sign operations, and the functions that stand in for C99's *)

(** [-x] on an IEEE-754 double reverses the sign bit, [fabs] clears it
    and C99's [copysign] takes it from the second operand; a NaN is
    treated like any other bit pattern. *)
Definition ieee_neg (x : double) : double := Z.lxor x 0x8000000000000000.
Definition fabs (x : double) : double := Z.land x 0x7FFFFFFFFFFFFFFF.
Definition copysign (x y : double) : double :=
  Z.lor (Z.land x 0x7FFFFFFFFFFFFFFF) (Z.land y 0x8000000000000000).

(** IEEE-754 arithmetic of a hosted compiler, rounding to nearest even.
    A NaN result is the quiet NaN with an empty payload. *)
Definition ieee_add (x y : double) : double :=
  encode (SFadd prec emax (decode x) (decode y)).
Definition ieee_mul (x y : double) : double :=
  encode (SFmul prec emax (decode x) (decode y)).
Definition ieee_div (x y : double) : double :=
  encode (SFdiv prec emax (decode x) (decode y)).
Definition sqrt (x : double) : double :=
  encode (SFsqrt prec emax (decode x)).

(** The functions of math.h that only a C99 library has. *)
Record c99_libm := {
  hypot : double -> double -> double
}.

(** What a kernel build takes from fixmath.h beyond [fixmath]: the C
    negation on its [__double] and the functions of the same names. *)
Record fixmath_ops := {
  fix_neg : double -> double;                  (* - x *)
  fixpt_abs : double -> double;
  fixpt_copysign : double -> double -> double;
  fixpt_hypot : double -> double -> double;
  fixpt_to_int : double -> Z;
  fixpt_from_int : Z -> double
}.

(** A back-end together with these: [C99] is [Some] library when
    [HAS_C99_FLOAT_OPS] is defined. *)
Inductive backend_ops :=
  | HostedOps (L : libc) (C99 : option c99_libm)
  | KernelOps (F : fixmath) (K : fixmath_ops).

Definition backend_of (O : backend_ops) : backend :=
  match O with
  | HostedOps L _ => Hosted L
  | KernelOps F _ => Kernel F
  end.

Definition op_neg (O : backend_ops) (x : double) : double :=
  match O with
  | HostedOps _ _ => ieee_neg x
  | KernelOps _ K => fix_neg K x
  end.

Section SignPrimitives.
Variable T : target.

(** [union double_as_two_int32]: the member [d] seen after [i.h] and
    [i.l] were written. *)
Definition two_int32_as_double (h l : Z) : double :=
  let '(w0, w1) :=
    if ARCH_BIG_ENDIAN T || ARM_OLD_ABI T
    then (h, l)       (* struct { uint32 h; uint32 l; } i; *)
    else (l, h) in    (* struct { uint32 l; uint32 h; } i; *)
  if high_word_first T then join32 w0 w1 else join32 w1 w0.

(** [caml_copysign] and [caml_hypot] are compiled when neither
    [__FreeBSD__] nor [_KERNEL] is defined; the hosted primitives call
    them. *)
Definition caml_copysign (C99 : option c99_libm) (x y : double) : double :=
  match C99 with
  | Some _ => copysign x y
  | None =>
      let '(uxh, uxl) := double_as_two_int32 T x in
      let '(uyh, _) := double_as_two_int32 T y in
      let uxh := Z.land uxh 0x7FFFFFFF in
      let uxh := Z.lor uxh (Z.land uyh 0x80000000) in
      two_int32_as_double uxh uxl
  end.

Definition caml_hypot (C99 : option c99_libm) (x y : double) : double :=
  match C99 with
  | Some M => hypot M x y
  | None =>
      if negb (ieee_eq x x) then x          (* NaN *)
      else if negb (ieee_eq y y) then y     (* NaN *)
      else
        let x := fabs x in
        let y := fabs y in
        let '(x, y) := if ieee_lt x y then (y, x) else (x, y) in
        if ieee_eq x plus_zero then plus_zero
        else
          let ratio := ieee_div y x in
          ieee_mul x (sqrt (ieee_add one (ieee_mul ratio ratio)))
  end.

Variable O : backend_ops.

Definition caml_neg_float (f : value) : prim value :=
  x ← Double_val T f;
  caml_copy_double T (op_neg O x).

Definition caml_abs_float (f : value) : prim value :=
  x ← Double_val T f;
  match O with
  | KernelOps _ K => caml_copy_double T (fixpt_abs K x)
  | HostedOps _ _ => caml_copy_double T (fabs x)
  end.

Definition caml_copysign_float (f g : value) : prim value :=
  x ← Double_val T f; y ← Double_val T g;
  match O with
  | KernelOps _ K => caml_copy_double T (fixpt_copysign K x y)
  | HostedOps _ C99 => caml_copy_double T (caml_copysign C99 x y)
  end.

Definition caml_hypot_float (f g : value) : prim value :=
  x ← Double_val T f; y ← Double_val T g;
  match O with
  | KernelOps _ K => caml_copy_double T (fixpt_hypot K x y)
  | HostedOps _ C99 => caml_copy_double T (caml_hypot C99 x y)
  end.
End SignPrimitives.

(** ** Vocabulary of the further statements *)


(** A hosted build without C99 library, on which the functions of this
    file that stand in for [hypot] and [copysign] are used. *)
Definition hosted_ops : backend_ops := HostedOps (c_library false true) None.

(** The double 3.0, 4.0 and -1.0. *)
Definition three : double := 0x4008000000000000.
Definition four : double := 0x4010000000000000.
Definition minus_one : double := 0xBFF0000000000000.

(** The double that [Double_val] reads from the fields of a block. *)
Definition double_of_fields (T : target) (fs : list Z) : option double :=
  if ARCH_ALIGN_DOUBLE T || negb (ARCH_SIXTYFOUR T) then
    match fs !! 0%nat, fs !! 1%nat with
    | Some v0, Some v1 => Some (union_d T v0 v1)
    | _, _ => None
    end
  else fs !! 0%nat.

(** A 64-bit target that nevertheless defines [ARCH_ALIGN_DOUBLE]. *)
Definition aligned64 : target :=
  {| ARCH_SIXTYFOUR := true; ARCH_ALIGN_DOUBLE := true;
     ARCH_BIG_ENDIAN := false; ARM_OLD_ABI := false |}.




(** A text with a NUL byte in the middle. *)
Definition text_with_nul : string := String "1" (String NUL (String "2" EmptyString)).


(** ** Conversions between floats and integers *)

(** [(double) n] of a hosted compiler: the integer rounded to nearest
    even. *)
Definition double_of_int (n : Z) : double :=
  encode (binary_normalize prec emax n 0 false).

(** The integral part of a double, towards zero; a NaN and the
    infinities have none. *)
Definition trunc_double (d : double) : option Z :=
  match decode d with
  | S754_zero _ => Some 0
  | S754_finite s m e =>
      let a := if 0 <=? e then Zpos m * 2 ^ e else Zpos m / 2 ^ (- e) in
      Some (if s then - a else a)
  | S754_infinity _ | S754_nan => None
  end.

Section IntConversions.
Variable T : target.

Definition intnat_fits (n : Z) : bool :=
  (- 2 ^ (wordsize T - 1) <=? n) && (n <? 2 ^ (wordsize T - 1)).

(** [(intnat) d] of a hosted compiler; the conversion is undefined when
    the integral part does not fit. *)
Definition intnat_of_double (d : double) : option Z :=
  match trunc_double d with
  | Some i => if intnat_fits i then Some i else None
  | None => None
  end.

(** The integer that the macro [Val_long] makes of an [intnat]: its
    shift to the left drops the topmost bit. *)
Definition long_of_intnat (n : Z) : Z :=
  (n + 2 ^ (wordsize T - 2)) mod 2 ^ (wordsize T - 1) - 2 ^ (wordsize T - 2).

(** An integer that a [value] can hold. *)
Definition is_long (n : Z) : Prop :=
  - 2 ^ (wordsize T - 2) <= n < 2 ^ (wordsize T - 2).

Variable O : backend_ops.

Definition caml_int_of_float (f : value) : prim value :=
  x ← Double_val T f;
  match O with
  | KernelOps _ K => mret (Val_long (long_of_intnat (fixpt_to_int K x)))
  | HostedOps _ _ =>
      i ← lift_option (intnat_of_double x);
      mret (Val_long (long_of_intnat i))
  end.

Definition caml_float_of_int (n : value) : prim value :=
  i ← Long_val n;
  match O with
  | KernelOps _ K => caml_copy_double T (fixpt_from_int K i)
  | HostedOps _ _ => caml_copy_double T (double_of_int i)
  end.
End IntConversions.

(** * Theorems *)

(** ** Bit patterns *)

Lemma testbit_low32_mask n : 0 <= n -> Z.testbit 0xFFFFFFFF n = (n <? 32).
Proof.
  intros Hn. change 0xFFFFFFFF with (Z.ones 32).
  destruct (Z.ltb_spec n 32).
  - apply Z.ones_spec_low; lia.
  - apply Z.ones_spec_high; lia.
Qed.

Lemma join32_hi_lo d : join32 (hi32 d) (lo32 d) = d.
Proof.
  unfold join32, hi32, lo32. apply Z.bits_inj'; intros n Hn.
  rewrite Z.lor_spec, Z.land_spec, testbit_low32_mask by lia.
  destruct (Z.ltb_spec n 32).
  - rewrite Z.shiftl_spec_low by lia. now rewrite andb_true_r.
  - rewrite Z.shiftl_spec, Z.shiftr_spec by lia.
    rewrite andb_false_r, orb_false_r. f_equal; lia.
Qed.

Lemma union_roundtrip T d : union_d T (fst (union_v T d)) (snd (union_v T d)) = d.
Proof.
  unfold union_d, union_v.
  destruct (ARCH_SIXTYFOUR T); [reflexivity|].
  destruct (high_word_first T); simpl; apply join32_hi_lo.
Qed.

(** The two halves of a double fit a 32-bit [value] each. *)
Lemma halves_fit_words d :
  is_double d -> 0 <= hi32 d < 2 ^ 32 /\ 0 <= lo32 d < 2 ^ 32.
Proof.
  unfold is_double, hi32, lo32. intros Hd. split.
  - rewrite Z.shiftr_div_pow2 by lia. split.
    + apply Z.div_pos; lia.
    + apply Z.div_lt_upper_bound; lia.
  - change 0xFFFFFFFF with (Z.ones 32). rewrite Z.land_ones by lia.
    apply Z.mod_pos_bound. lia.
Qed.

(** ** The heap *)

Lemma read_fresh_block h n b :
  read_block (Ptr (length h)) {| heap := h ++ [b]; stat_live := n |}
  = Done b {| heap := h ++ [b]; stat_live := n |}.
Proof.
  unfold read_block; simpl. now rewrite list_lookup_middle.
Qed.

Lemma Field_fresh h n t fs i w :
  fs !! i = Some w ->
  Field (Ptr (length h)) i {| heap := h ++ [Words t fs]; stat_live := n |}
  = Done w {| heap := h ++ [Words t fs]; stat_live := n |}.
Proof.
  intros Hi. unfold Field, mbind, prim_bind.
  rewrite read_fresh_block. simpl. now rewrite Hi.
Qed.

Lemma Store_field_fresh h n t fs i w :
  (i < length fs)%nat ->
  Store_field (Ptr (length h)) i w {| heap := h ++ [Words t fs]; stat_live := n |}
  = Done tt {| heap := h ++ [Words t (<[i := w]> fs)]; stat_live := n |}.
Proof.
  intros Hi. unfold Store_field; simpl.
  rewrite list_lookup_middle by reflexivity.
  destruct (decide (i < length fs)%nat); [|lia].
  do 2 f_equal. rewrite insert_app_r_alt by lia.
  now rewrite Nat.sub_diag.
Qed.

Lemma caml_copy_double_layout T d st :
  assert_double_size T ->
  caml_copy_double T d st
  = Done (Ptr (length (heap st)))
      {| heap := heap st ++
                 [Words Double_tag
                    (if ARCH_SIXTYFOUR T then [d]
                     else [fst (union_v T d); snd (union_v T d)])];
         stat_live := stat_live st |}.
Proof.
  intros HT. unfold caml_copy_double, Alloc_small, Store_double_val,
    caml_Store_double_val, Double_wosize, mbind, prim_bind, mret, prim_ret.
  destruct (ARCH_ALIGN_DOUBLE T) eqn:HA, (ARCH_SIXTYFOUR T) eqn:H64;
    try (specialize (HT HA); congruence); cbn [replicate];
    repeat (rewrite Store_field_fresh by (simpl; lia); cbn [length]);
    reflexivity.
Qed.

Lemma Double_val_fresh T d h n :
  assert_double_size T ->
  let st' := {| heap := h ++
                  [Words Double_tag
                     (if ARCH_SIXTYFOUR T then [d]
                      else [fst (union_v T d); snd (union_v T d)])];
                stat_live := n |} in
  Double_val T (Ptr (length h)) st' = Done d st'.
Proof.
  intros HT st'. subst st'. pose proof (union_roundtrip T d) as Hu.
  unfold Double_val, caml_Double_val, mbind, prim_bind, mret, prim_ret.
  destruct (ARCH_ALIGN_DOUBLE T) eqn:HA, (ARCH_SIXTYFOUR T) eqn:H64;
    try (specialize (HT HA); congruence);
    repeat (erewrite Field_fresh by reflexivity);
    try reflexivity; now rewrite Hu.
Qed.

Lemma box_then_unbox T d st :
  assert_double_size T ->
  exists v st', caml_copy_double T d st = Done v st' /\ boxed T st' v d.
Proof.
  intros HT. eexists _, _. split.
  - apply caml_copy_double_layout, HT.
  - apply (Double_val_fresh T d (heap st) (stat_live st) HT).
Qed.

(** C1: unboxing a freshly boxed double returns the same bit pattern, on
    every target that satisfies the size assertion of the two-word
    marshalling functions; with [ARCH_ALIGN_DOUBLE] the double goes through
    [caml_Store_double_val] and comes back through [caml_Double_val]. *)
Theorem copy_double_roundtrip (T : target) (d : double) (st : runtime) :
  assert_double_size T ->
  exists v st', caml_copy_double T d st = Done v st' /\ Double_val T v st' = Done d st'.
Proof.
  intros HT. exists (Ptr (length (heap st))). eexists. split.
  - apply caml_copy_double_layout, HT.
  - apply (Double_val_fresh T d (heap st) (stat_live st) HT).
Qed.

Lemma copy_double_roundtrip_witness :
  assert_double_size sparc32 /\
  exists v st',
    caml_copy_double sparc32 one empty_runtime = Done v st' /\
    Double_val sparc32 v st' = Done one st'.
Proof.
  assert (H : assert_double_size sparc32) by (intros _; reflexivity).
  split; [exact H | exact (copy_double_roundtrip sparc32 one empty_runtime H)].
Defined.

(** ** The IEEE-754 comparison *)

Lemma SFcompare_antisym x y :
  SFcompare y x = option_map CompOpp (SFcompare x y).
Proof.
  destruct x as [[]|[]| |[] m1 e1], y as [[]|[]| |[] m2 e2]; simpl; try reflexivity;
    rewrite (Z.compare_antisym e1 e2); destruct (e1 ?= e2); simpl; try reflexivity;
    change (PosDef.Pos.compare_cont Eq m2 m1) with (Pos.compare m2 m1);
    change (PosDef.Pos.compare_cont Eq m1 m2) with (Pos.compare m1 m2);
    now rewrite (Pos.compare_antisym m1 m2).
Qed.

Ltac compare_cases :=
  repeat match goal with
  | |- context [Z.compare ?a ?b] =>
      destruct (Z.compare_spec a b); simpl; try discriminate; try reflexivity
  | |- context [Pos.compare ?a ?b] =>
      destruct (Pos.compare_spec a b); simpl; try discriminate; try reflexivity
  end.

Lemma SFcompare_le_trans x y z :
  SFleb x y = true -> SFleb y z = true -> SFleb x z = true.
Proof.
  unfold SFleb.
  destruct x as [[]|[]| |[] m1 e1], y as [[]|[]| |[] m2 e2], z as [[]|[]| |[] m3 e3];
    simpl; try reflexivity; try discriminate;
    change (PosDef.Pos.compare_cont Eq) with Pos.compare;
    compare_cases; try lia.
Qed.

Lemma mantissa_field_nonneg d : 0 <= mantissa_field d.
Proof. unfold mantissa_field. apply Z.land_nonneg. right. now vm_compute. Qed.

Lemma decode_nan d : decode d = S754_nan <-> dbl_is_nan d = true.
Proof.
  pose proof (mantissa_field_nonneg d) as Hm.
  unfold decode, dbl_is_nan.
  destruct (exponent_field d =? 0) eqn:H0.
  - apply Z.eqb_eq in H0. rewrite H0. simpl.
    split; [|discriminate]. destruct (mantissa_field d); discriminate.
  - destruct (exponent_field d =? 0x7FF); simpl.
    + destruct (mantissa_field d =? 0); simpl; split; congruence.
    + split; [|discriminate].
      destruct (mantissa_field d + 2 ^ 52) eqn:Hp; try discriminate; lia.
Qed.

Lemma isnan_bits d : isnan d = dbl_is_nan d.
Proof.
  unfold isnan. destruct (dbl_is_nan d) eqn:H.
  - apply decode_nan in H. now rewrite H.
  - destruct (decode d) eqn:Hd; try reflexivity.
    apply decode_nan in Hd. congruence.
Qed.

Lemma SFcompare_nan x y :
  x = S754_nan \/ y = S754_nan -> SFcompare x y = None.
Proof. intros [-> | ->]; [reflexivity|]. now destruct x as [[]|[]| |[] ? ?]. Qed.

Lemma SFcompare_ordered x y :
  x <> S754_nan -> y <> S754_nan -> exists c, SFcompare x y = Some c.
Proof.
  intros Hx Hy.
  destruct x as [[]|[]| |[] ? ?], y as [[]|[]| |[] ? ?]; simpl; try congruence; eauto.
Qed.

(** ** The three-way comparison *)

Lemma caml_float_compare_unboxed T B st vf vg f g :
  boxed T st vf f -> boxed T st vg g ->
  compare_returns T B st vf vg
    (if op_eq B f g then 0
     else if op_lt B f g then -1
     else if op_gt B f g then 1
     else 0).
Proof.
  unfold boxed, compare_returns, caml_float_compare, mbind, prim_bind.
  intros -> ->.
  now destruct (op_eq B f g), (op_lt B f g), (op_gt B f g).
Qed.

Lemma hosted_compare_code L f g :
  (if op_eq (Hosted L) f g then 0
   else if op_lt (Hosted L) f g then -1
   else if op_gt (Hosted L) f g then 1
   else 0)
  = compare_code (SFcompare (decode f) (decode g)).
Proof.
  unfold op_gt, op_lt, op_eq, ieee_eq, ieee_lt, SFeqb, SFltb.
  rewrite (SFcompare_antisym (decode f) (decode g)).
  generalize (SFcompare (decode f) (decode g)). now intros [[]|].
Qed.

Lemma caml_float_compare_hosted T L st vf vg f g :
  boxed T st vf f -> boxed T st vg g ->
  compare_returns T (Hosted L) st vf vg
    (compare_code (SFcompare (decode f) (decode g))).
Proof.
  intros Hf Hg. rewrite <- (hosted_compare_code L).
  now apply caml_float_compare_unboxed.
Qed.

Lemma compare_returns_inj T B st vf vg a b :
  compare_returns T B st vf vg a -> compare_returns T B st vf vg b -> a = b.
Proof. unfold compare_returns. intros -> [=]. congruence. Qed.

Lemma SFcompare_some_not_nan x y c :
  SFcompare x y = Some c -> x <> S754_nan /\ y <> S754_nan.
Proof.
  intros H. split; intros ->.
  - discriminate.
  - now rewrite SFcompare_nan in H by auto.
Qed.

Lemma compare_code_nonpos_leb x y :
  x <> S754_nan -> y <> S754_nan ->
  compare_code (SFcompare x y) <= 0 -> SFleb x y = true.
Proof.
  intros Hx Hy. unfold SFleb.
  destruct (SFcompare_ordered x y Hx Hy) as [c ->].
  destruct c; simpl; (reflexivity || lia).
Qed.

Lemma not_nan_decode d : dbl_is_nan d = false -> decode d <> S754_nan.
Proof. intros H Hd. apply decode_nan in Hd. congruence. Qed.

(** C2 (as amended): the three-way comparison is antisymmetric, it
    returns 0 as soon as one operand is a NaN, and it is transitive
    through every middle operand that is not a NaN. *)
Theorem float_compare_order (T : target) (L : libc) (st : runtime)
    (vf vg vh : value) (f g h : double) :
  boxed T st vf f -> boxed T st vg g -> boxed T st vh h ->
  (exists a b, compare_returns T (Hosted L) st vf vg a /\
               compare_returns T (Hosted L) st vg vf b /\ a = - b) /\
  (dbl_is_nan f = true \/ dbl_is_nan g = true ->
   compare_returns T (Hosted L) st vf vg 0) /\
  (dbl_is_nan g = false ->
   compare_transitive_at T (Hosted L) st vf vg vh /\
   exists c, compare_returns T (Hosted L) st vf vh c).
Proof.
  intros Hf Hg Hh.
  pose proof (caml_float_compare_hosted T L st vf vg f g Hf Hg) as Hfg.
  pose proof (caml_float_compare_hosted T L st vg vf g f Hg Hf) as Hgf.
  pose proof (caml_float_compare_hosted T L st vg vh g h Hg Hh) as Hgh.
  pose proof (caml_float_compare_hosted T L st vf vh f h Hf Hh) as Hfh.
  split; [|split].
  - eexists _, _. split; [exact Hfg|]. split; [exact Hgf|].
    rewrite (SFcompare_antisym (decode f) (decode g)).
    now destruct (SFcompare (decode f) (decode g)) as [[]|].
  - intros Hnan.
    rewrite SFcompare_nan in Hfg; [exact Hfg|].
    destruct Hnan as [H|H]; apply decode_nan in H; auto.
  - intros Hgn. split; [|eauto].
    intros a b c Ha Hb Hc Ha0 Hb0.
    rewrite (compare_returns_inj _ _ _ _ _ _ _ Ha Hfg) in Ha0.
    rewrite (compare_returns_inj _ _ _ _ _ _ _ Hb Hgh) in Hb0.
    rewrite (compare_returns_inj _ _ _ _ _ _ _ Hc Hfh).
    apply not_nan_decode in Hgn.
    destruct (SFcompare (decode f) (decode h)) as [[]|] eqn:E; simpl; try lia.
    apply SFcompare_some_not_nan in E as E'. destruct E' as [Hfn Hhn].
    pose proof (SFcompare_le_trans _ _ _
                  (compare_code_nonpos_leb _ _ Hfn Hgn Ha0)
                  (compare_code_nonpos_leb _ _ Hgn Hhn Hb0)) as Hle.
    unfold SFleb in Hle. rewrite E in Hle. discriminate.
Qed.

Lemma float_compare_order_witness :
  (exists a b, compare_returns amd64 hosted one_nan_zero (Ptr 2) (Ptr 0) a /\
               compare_returns amd64 hosted one_nan_zero (Ptr 0) (Ptr 2) b /\ a = - b) /\
  compare_returns amd64 hosted one_nan_zero (Ptr 1) (Ptr 0) 0 /\
  compare_transitive_at amd64 hosted one_nan_zero (Ptr 2) (Ptr 0) (Ptr 0).
Proof.
  destruct (float_compare_order amd64 (c_library false true) one_nan_zero
              (Ptr 2) (Ptr 0) (Ptr 0) plus_zero one one
              eq_refl eq_refl eq_refl) as (Hanti & _ & Htrans).
  destruct (float_compare_order amd64 (c_library false true) one_nan_zero
              (Ptr 1) (Ptr 0) (Ptr 0) quiet_nan one one
              eq_refl eq_refl eq_refl) as (_ & Hnan & _).
  split; [exact Hanti|]. split.
  - exact (Hnan (or_introl eq_refl)).
  - exact (proj1 (Htrans eq_refl)).
Defined.

(** C2, counterexample: through a NaN in the middle the comparison is
    not transitive: compare(1.0, NaN) = 0 and compare(NaN, 0.0) = 0, but
    compare(1.0, 0.0) = 1. *)
Lemma float_compare_not_transitive :
  ~ compare_transitive_at amd64 hosted one_nan_zero (Ptr 0) (Ptr 1) (Ptr 2).
Proof.
  intros H.
  assert (H01 : compare_returns amd64 hosted one_nan_zero (Ptr 0) (Ptr 1) 0)
    by (vm_compute; reflexivity).
  assert (H12 : compare_returns amd64 hosted one_nan_zero (Ptr 1) (Ptr 2) 0)
    by (vm_compute; reflexivity).
  assert (H02 : compare_returns amd64 hosted one_nan_zero (Ptr 0) (Ptr 2) 1)
    by (vm_compute; reflexivity).
  specialize (H 0 0 1 H01 H12 H02). lia.
Qed.

(** C3: on boxed floats the three-way comparison returns -1 when f < g,
    0 when f == g, 1 when f > g, and 0 as soon as one of the operands is
    a NaN, also when the other one is not. *)
Theorem float_compare_cases (T : target) (L : libc) (st : runtime)
    (vf vg : value) (f g : double) :
  boxed T st vf f -> boxed T st vg g ->
  (ieee_lt f g = true -> compare_returns T (Hosted L) st vf vg (-1)) /\
  (ieee_eq f g = true -> compare_returns T (Hosted L) st vf vg 0) /\
  (ieee_lt g f = true -> compare_returns T (Hosted L) st vf vg 1) /\
  (dbl_is_nan f = true \/ dbl_is_nan g = true ->
   compare_returns T (Hosted L) st vf vg 0).
Proof.
  intros Hf Hg.
  pose proof (caml_float_compare_hosted T L st vf vg f g Hf Hg) as H.
  unfold ieee_lt, ieee_eq, SFltb, SFeqb.
  rewrite (SFcompare_antisym (decode f) (decode g)).
  repeat split; intros E.
  - now destruct (SFcompare (decode f) (decode g)) as [[]|].
  - now destruct (SFcompare (decode f) (decode g)) as [[]|].
  - now destruct (SFcompare (decode f) (decode g)) as [[]|].
  - rewrite SFcompare_nan in H; [exact H|].
    destruct E as [E|E]; apply decode_nan in E; auto.
Qed.

Lemma float_compare_cases_witness :
  compare_returns amd64 hosted one_nan_zero (Ptr 2) (Ptr 0) (-1) /\
  compare_returns amd64 hosted one_nan_zero (Ptr 0) (Ptr 0) 0 /\
  compare_returns amd64 hosted one_nan_zero (Ptr 0) (Ptr 2) 1 /\
  compare_returns amd64 hosted one_nan_zero (Ptr 0) (Ptr 1) 0.
Proof.
  pose proof (float_compare_cases amd64 (c_library false true) one_nan_zero) as H.
  destruct (H (Ptr 2) (Ptr 0) plus_zero one eq_refl eq_refl) as (Hlt & _).
  destruct (H (Ptr 0) (Ptr 0) one one eq_refl eq_refl) as (_ & Heq & _).
  destruct (H (Ptr 0) (Ptr 2) one plus_zero eq_refl eq_refl) as (_ & _ & Hgt & _).
  destruct (H (Ptr 0) (Ptr 1) one quiet_nan eq_refl eq_refl) as (_ & _ & _ & Hnan).
  split; [exact (Hlt eq_refl)|].
  split; [exact (Heq eq_refl)|].
  split; [exact (Hgt eq_refl)|].
  exact (Hnan (or_intror eq_refl)).
Defined.

(** ** The relational primitives *)

Ltac run_unboxed Hf Hg :=
  unfold boxed in Hf, Hg;
  unfold caml_eq_float, caml_neq_float, caml_le_float, caml_lt_float,
    caml_ge_float, caml_gt_float, mbind, prim_bind;
  rewrite ?Hf, ?Hg.

(** In a hosted build each relational primitive returns the result of
    the C operator of its name. *)
Lemma relational_hosted T L st vf vg f g :
  boxed T st vf f -> boxed T st vg g ->
  let B := Hosted L in
  caml_eq_float T B vf vg st = Done (Val_bool (op_eq B f g)) st /\
  caml_neq_float T B vf vg st = Done (Val_bool (op_ne B f g)) st /\
  caml_le_float T B vf vg st = Done (Val_bool (op_le B f g)) st /\
  caml_lt_float T B vf vg st = Done (Val_bool (op_lt B f g)) st /\
  caml_ge_float T B vf vg st = Done (Val_bool (op_ge B f g)) st /\
  caml_gt_float T B vf vg st = Done (Val_bool (op_gt B f g)) st.
Proof. intros Hf Hg B. run_unboxed Hf Hg. now repeat split. Qed.

(** With a NaN operand every IEEE-754 comparison is false, except [!=]. *)
Lemma relational_nan L f g :
  dbl_is_nan f = true \/ dbl_is_nan g = true ->
  let B := Hosted L in
  op_eq B f g = false /\ op_ne B f g = true /\ op_le B f g = false /\
  op_lt B f g = false /\ op_ge B f g = false /\ op_gt B f g = false.
Proof.
  intros H B.
  assert (Hfg : SFcompare (decode f) (decode g) = None)
    by (apply SFcompare_nan; destruct H as [H|H]; apply decode_nan in H; auto).
  assert (Hgf : SFcompare (decode g) (decode f) = None)
    by (apply SFcompare_nan; destruct H as [H|H]; apply decode_nan in H; auto).
  unfold op_ne, op_ge, op_gt, B, op_eq, op_lt, op_le,
    ieee_eq, ieee_lt, ieee_le, SFeqb, SFltb, SFleb.
  rewrite Hfg, Hgf. now repeat split.
Qed.

(** In a kernel build [caml_lt_float] is [caml_le_float]. *)
Lemma caml_lt_float_kernel T F vf vg st :
  caml_lt_float T (Kernel F) vf vg st = caml_le_float T (Kernel F) vf vg st.
Proof. reflexivity. Qed.

(** C4, the failing input: in a kernel build [caml_lt_float] applied to
    two equal floats returns true, although [x < x] is false. *)
Theorem lt_float_kernel_equal_operands :
  caml_lt_float amd64 kernel (Ptr 0) (Ptr 0) (heap_of_double one)
  = Done (Val_bool true) (heap_of_double one) /\
  op_lt kernel one one = false.
Proof. split; vm_compute; reflexivity. Qed.

(** ** Classification *)

Lemma double_as_two_int32_hi_lo T d :
  double_as_two_int32 T d = (hi32 d, lo32 d).
Proof.
  unfold double_as_two_int32, double_halves, high_word_first.
  now destruct (ARCH_BIG_ENDIAN T || ARM_OLD_ABI T).
Qed.

Lemma testbit_ones n k : 0 <= n -> 0 <= k -> Z.testbit (Z.ones n) k = (k <? n).
Proof.
  intros Hn Hk. destruct (Z.ltb_spec k n).
  - apply Z.ones_spec_low; lia.
  - apply Z.ones_spec_high; lia.
Qed.

Lemma exponent_in_high_word d :
  Z.land (hi32 d) 0x7FF00000 = Z.shiftl (exponent_field d) 20.
Proof.
  unfold hi32, exponent_field.
  change 0x7FF00000 with (Z.shiftl (Z.ones 11) 20). change 0x7FF with (Z.ones 11).
  apply Z.bits_inj'; intros n Hn.
  rewrite Z.land_spec, Z.shiftr_spec by lia.
  destruct (Z.ltb_spec n 20).
  - rewrite !Z.shiftl_spec_low by lia. apply andb_false_r.
  - rewrite !Z.shiftl_spec by lia.
    rewrite Z.land_spec, Z.shiftr_spec by lia.
    do 2 f_equal. lia.
Qed.

Lemma mantissa_in_words d :
  mantissa_field d = join32 (Z.land (hi32 d) 0xFFFFF) (lo32 d).
Proof.
  unfold mantissa_field, join32, hi32, lo32.
  change 0xFFFFF with (Z.ones 20).
  apply Z.bits_inj'; intros n Hn.
  rewrite Z.lor_spec, !Z.land_spec, testbit_low32_mask, testbit_ones by lia.
  destruct (Z.ltb_spec n 32).
  - rewrite Z.shiftl_spec_low by lia.
    replace (n <? 52) with true by (symmetry; apply Z.ltb_lt; lia). reflexivity.
  - rewrite Z.shiftl_spec, Z.land_spec, Z.shiftr_spec, testbit_ones by lia.
    rewrite andb_false_r, orb_false_r.
    replace (n - 32 + 32) with n by lia.
    f_equal. destruct (Z.ltb_spec n 52), (Z.ltb_spec (n - 32) 20); (reflexivity || lia).
Qed.

Lemma mantissa_zero_words d :
  mantissa_field d = 0 <-> Z.lor (lo32 d) (Z.land (hi32 d) 0xFFFFF) = 0.
Proof.
  rewrite mantissa_in_words. unfold join32.
  rewrite !Z.lor_eq_0_iff, Z.shiftl_eq_0_iff by lia. tauto.
Qed.

Lemma exponent_field_range d : 0 <= exponent_field d < 2 ^ 11.
Proof.
  unfold exponent_field. change 0x7FF with (Z.ones 11).
  rewrite Z.land_ones by lia. apply Z.mod_pos_bound. lia.
Qed.

Lemma mantissa_field_range d : 0 <= mantissa_field d < 2 ^ 52.
Proof.
  unfold mantissa_field. rewrite Z.land_ones by lia. apply Z.mod_pos_bound. lia.
Qed.

Lemma shiftl20_zero x : Z.shiftl x 20 = 0 <-> x = 0.
Proof. apply Z.shiftl_eq_0_iff. lia. Qed.

Lemma shiftl20_inj x y : Z.shiftl x 20 = Z.shiftl y 20 <-> x = y.
Proof. rewrite !Z.shiftl_mul_pow2 by lia. lia. Qed.

Lemma classify_cases (e m l : Z) :
  (m = 0 <-> l = 0) ->
  (if Z.lor (Z.shiftl e 20) l =? 0 then FP_zero
   else if Z.shiftl e 20 =? 0 then FP_subnormal
   else if Z.shiftl e 20 =? Z.shiftl 0x7FF 20 then
     if l =? 0 then FP_infinite else FP_nan
   else FP_normal)
  = (if (e =? 0) && (m =? 0) then FP_zero
     else if (e =? 0) && negb (m =? 0) then FP_subnormal
     else if (e =? 0x7FF) && (m =? 0) then FP_infinite
     else if (e =? 0x7FF) && negb (m =? 0) then FP_nan
     else FP_normal).
Proof.
  intros Hm.
  assert (Hor : Z.lor (Z.shiftl e 20) l = 0 <-> e = 0 /\ m = 0)
    by (rewrite Z.lor_eq_0_iff, shiftl20_zero; tauto).
  destruct (Z.eqb_spec (Z.lor (Z.shiftl e 20) l) 0) as [H|H],
           (Z.eqb_spec (Z.shiftl e 20) 0) as [H1|H1],
           (Z.eqb_spec (Z.shiftl e 20) (Z.shiftl 0x7FF 20)) as [H2|H2],
           (Z.eqb_spec l 0) as [H3|H3],
           (Z.eqb_spec e 0) as [E0|E0],
           (Z.eqb_spec e 0x7FF) as [E1|E1],
           (Z.eqb_spec m 0) as [M0|M0];
    try reflexivity; exfalso;
    rewrite ?shiftl20_zero, ?shiftl20_inj in *; try tauto; try lia.
Qed.

(** The manual inspection of the two 32-bit halves computes the class
    that the exponent and mantissa fields prescribe, in either word
    order. *)
Lemma classify_bits_spec T d : classify_bits T d = classify_spec d.
Proof.
  unfold classify_bits, classify_spec.
  rewrite double_as_two_int32_hi_lo, exponent_in_high_word.
  apply (classify_cases (exponent_field d) (mantissa_field d)).
  apply mantissa_zero_words.
Qed.

Lemma digits2_pos_size p : digits2_pos p = Pos.size p.
Proof. induction p; simpl; congruence. Qed.

Lemma digits2_pos_normal p :
  2 ^ 52 <= Zpos p < 2 ^ 53 -> Zpos (digits2_pos p) = 53.
Proof.
  intros [Hlo Hhi]. rewrite digits2_pos_size.
  pose proof (Pos.size_gt p) as Hgt. pose proof (Pos.size_le p) as Hle.
  apply Pos2Z.pos_lt_pos in Hgt. apply Pos2Z.pos_le_pos in Hle.
  rewrite Pos2Z.inj_pow in Hgt, Hle. rewrite (Pos2Z.inj_xO p) in Hle.
  set (k := Zpos (Pos.size p)) in *.
  assert (Hk : 0 < k) by (subst k; lia).
  destruct (Z.lt_trichotomy k 53) as [H|[H|H]]; [exfalso| exact H |exfalso].
  - assert (2 ^ k <= 2 ^ 52) by (apply Z.pow_le_mono_r; lia). lia.
  - assert (2 ^ 54 <= 2 ^ k) by (apply Z.pow_le_mono_r; lia). lia.
Qed.

Lemma digits2_pos_subnormal p :
  Zpos p < 2 ^ 52 -> Zpos (digits2_pos p) <> 53.
Proof.
  intros Hhi. rewrite digits2_pos_size.
  pose proof (Pos.size_le p) as Hle.
  apply Pos2Z.pos_le_pos in Hle.
  rewrite Pos2Z.inj_pow in Hle. rewrite (Pos2Z.inj_xO p) in Hle.
  intros E. rewrite E in Hle. lia.
Qed.

(** C99's [fpclassify] computes the same class. *)
Lemma fpclassify_spec d : class_of_c99 (fpclassify d) = classify_spec d.
Proof.
  unfold fpclassify, decode, classify_spec.
  pose proof (exponent_field_range d) as He.
  pose proof (mantissa_field_range d) as Hm.
  revert He Hm. generalize (exponent_field d), (mantissa_field d), (sign_bit d).
  intros e m s He Hm.
  destruct (Z.eqb_spec e 0) as [He0|He0].
  - destruct m as [|p|p]; [reflexivity| |lia].
    destruct (Z.eqb_spec (Zpos (digits2_pos p)) prec) as [E|_]; [|reflexivity].
    exfalso. now apply (digits2_pos_subnormal p).
  - destruct (Z.eqb_spec e 0x7FF) as [He1|He1].
    + now destruct (Z.eqb_spec m 0).
    + destruct (m + 2 ^ 52) as [|p|p] eqn:Ep; try lia.
      rewrite (digits2_pos_normal p) by lia. reflexivity.
Qed.

Lemma classify_float_hosted T L st vd d :
  boxed T st vd d -> classify_returns T (Hosted L) st vd (classify_spec d).
Proof.
  unfold boxed, classify_returns, caml_classify_float, mbind, prim_bind.
  intros Hd. destruct (HAVE_FPCLASSIFY L); rewrite Hd.
  - rewrite <- fpclassify_spec. now destruct (fpclassify d).
  - now rewrite classify_bits_spec.
Qed.

Lemma classify_float_kernel T F st vd d :
  boxed T st vd d ->
  classify_returns T (Kernel F) st vd (if fix_eq F d 0 then FP_zero else FP_normal).
Proof.
  unfold boxed, classify_returns, caml_classify_float, mbind, prim_bind.
  intros ->. simpl. now destruct (fix_eq F d 0).
Qed.

(** C5 (as amended): in a hosted build, with the host's [fpclassify] or
    with the inspection of the two 32-bit halves and in either word
    order, classification returns the class that the exponent and
    mantissa fields of the bit pattern prescribe, so that both zeros are
    zero, the infinities infinite and a NaN nan; in a kernel build it
    returns zero when [d == 0] and normal otherwise. *)
Theorem classify_float_classes (T : target) (B : backend) (st : runtime)
    (vd : value) (d : double) :
  boxed T st vd d ->
  match B with
  | Hosted _ => classify_returns T B st vd (classify_spec d)
  | Kernel F =>
      classify_returns T B st vd (if fix_eq F d 0 then FP_zero else FP_normal)
  end /\
  classify_spec plus_zero = FP_zero /\
  classify_spec minus_zero = FP_zero /\
  classify_spec plus_infinity = FP_infinite /\
  classify_spec minus_infinity = FP_infinite /\
  classify_spec quiet_nan = FP_nan /\
  classify_spec min_subnormal = FP_subnormal /\
  classify_spec one = FP_normal.
Proof.
  intros Hd. split; [|now repeat split].
  destruct B as [L|F].
  - now apply classify_float_hosted.
  - now apply classify_float_kernel.
Qed.

Lemma classify_float_classes_witness :
  classify_returns sparc32 (Hosted (c_library false false))
    {| heap := [Words Double_tag [0x7FF00000; 0]]; stat_live := 0 |}
    (Ptr 0) FP_infinite.
Proof.
  exact (proj1 (classify_float_classes sparc32 (Hosted (c_library false false))
                  {| heap := [Words Double_tag [0x7FF00000; 0]]; stat_live := 0 |}
                  (Ptr 0) plus_infinity eq_refl)).
Defined.

(** C5, counterexample: in the kernel build the bit pattern of
    +infinity is classified as normal, not as infinite. *)
Lemma classify_float_kernel_infinity :
  classify_returns amd64 kernel (heap_of_double plus_infinity) (Ptr 0) FP_normal /\
  ~ classify_returns amd64 kernel (heap_of_double plus_infinity) (Ptr 0)
      (classify_spec plus_infinity).
Proof.
  split.
  - vm_compute. reflexivity.
  - vm_compute. discriminate.
Qed.

(** ** Strings *)

Lemma string_app_assoc (a b c : string) :
  ((a ++ b) ++ c)%string = (a ++ (b ++ c))%string.
Proof. induction a; simpl; congruence. Qed.

Lemma string_app_empty_r (a : string) : (a ++ "")%string = a.
Proof. induction a; simpl; congruence. Qed.

Lemma string_get_lt (s : string) (n : nat) :
  (n < String.length s)%nat -> exists c, String.get n s = Some c.
Proof.
  revert n. induction s as [|c s IH]; intros n Hn; simpl in *; [lia|].
  destruct n; [eauto|]. apply IH. lia.
Qed.

Lemma substring_zero_len (s : string) (n : nat) : String.substring n 0 s = EmptyString.
Proof. revert n. induction s; intros [|n]; simpl; auto. Qed.

Lemma substring_step (s : string) (n m : nat) (c : ascii) :
  String.get n s = Some c ->
  String.substring n (S m) s = String c (String.substring (S n) m s).
Proof.
  revert n. induction s as [|a s IH]; intros n H; simpl in *.
  - destruct n; discriminate.
  - destruct n.
    + injection H as ->. reflexivity.
    + now apply IH.
Qed.

Lemma substring_full (s : string) : String.substring 0 (String.length s) s = s.
Proof. induction s; simpl; congruence. Qed.

Lemma delete_separators_cons c s :
  delete_separators (String c s)
  = if negb (Ascii.eqb c "_") then String c (delete_separators s)
    else delete_separators s.
Proof. unfold delete_separators. simpl. now destruct (Ascii.eqb c "_"). Qed.

Lemma delete_separators_app a b :
  delete_separators (a ++ b) = (delete_separators a ++ delete_separators b)%string.
Proof.
  induction a as [|c a IH]; [reflexivity|].
  change (String c a ++ b)%string with (String c (a ++ b)%string).
  rewrite !delete_separators_cons, IH. now destruct (Ascii.eqb c "_").
Qed.

(** No separator is left, and nothing else is touched. *)
Lemma delete_separators_chars s c :
  In c (list_ascii_of_string (delete_separators s))
  <-> In c (list_ascii_of_string s) /\ c <> "_"%char.
Proof.
  unfold delete_separators. rewrite list_ascii_of_string_of_list_ascii.
  rewrite filter_In. rewrite negb_true_iff, Ascii.eqb_neq. reflexivity.
Qed.

(** ** The copy loop *)

Lemma strip_loop_spec s len : forall src dst,
  0 <= src -> (Z.to_nat src + len <= String.length s)%nat ->
  strip_loop s src len dst
  = Some (dst ++ delete_separators (String.substring (Z.to_nat src) len s))%string.
Proof.
  induction len as [|len IH]; intros src dst Hsrc Hlen.
  - simpl. now rewrite substring_zero_len, string_app_empty_r.
  - cbn [strip_loop].
    destruct (Z.ltb_spec src 0) as [|_]; [lia|].
    destruct (string_get_lt s (Z.to_nat src)) as [c Hc]; [lia|].
    rewrite Hc, (substring_step _ _ _ _ Hc), IH by lia.
    rewrite delete_separators_cons.
    replace (Z.to_nat (src + 1)) with (S (Z.to_nat src)) by lia.
    destruct (Ascii.eqb c "_"); simpl; [reflexivity|].
    now rewrite string_app_assoc.
Qed.

Lemma strip_loop_whole s :
  strip_loop s 0 (String.length s) EmptyString = Some (delete_separators s).
Proof.
  rewrite strip_loop_spec by (simpl; lia). simpl. now rewrite substring_full.
Qed.

Lemma stat_alloc_free (A : Type) (m : prim A) (k : bool) st :
  ((if k then caml_stat_alloc else mret tt);; m) st
  = m {| heap := heap st;
         stat_live := if k then S (stat_live st) else stat_live st |}.
Proof. destruct st as [h n]. now destruct k. Qed.

Lemma parse_slice_cleaned T B s src len st cleaned :
  strip_loop s src (Z.to_nat len) EmptyString = Some cleaned ->
  parse_slice T B s src len st = convert_cleaned T B cleaned st.
Proof.
  intros Hloop. unfold parse_slice, convert_cleaned.
  rewrite stat_alloc_free. unfold mbind at 1, prim_bind at 1.
  rewrite Hloop. cbn [lift_option mret prim_ret].
  destruct st as [h n]. cbn [heap stat_live].
  destruct (String.length cleaned =? 0)%nat.
  - now destruct (negb (len <? 64)).
  - destruct (native_strtod B (c_string cleaned)) as [d e].
    destruct (negb (e =? String.length cleaned)%nat); now destruct (negb (len <? 64)).
Qed.

Lemma caml_float_of_string_cleaned T B st vs s :
  String_val vs st = Done s st ->
  caml_float_of_string T B vs st = convert_cleaned T B (delete_separators s) st.
Proof.
  intros Hs. unfold caml_float_of_string, caml_string_length, mbind, prim_bind.
  rewrite Hs. cbn [mret prim_ret]. rewrite Hs.
  apply parse_slice_cleaned. rewrite Nat2Z.id. apply strip_loop_whole.
Qed.

(** ** The bounds check of [caml_float_of_substring] *)

Lemma wordsize_pow T :
  0 < 2 ^ wordsize T /\ 2 * 2 ^ (wordsize T - 1) = 2 ^ wordsize T.
Proof. unfold wordsize. destruct (ARCH_SIXTYFOUR T); split; (reflexivity || lia). Qed.

Lemma to_mlsize_small T x : 0 <= x < 2 ^ wordsize T -> to_mlsize T x = x.
Proof. intros H. unfold to_mlsize. now apply Z.mod_small. Qed.

Lemma slice_check T s idx len :
  is_intnat T idx -> is_intnat T len -> string_fits T s ->
  let lenvs := Z.of_nat (String.length s) in
  (idx >=? 0) && (to_mlsize T idx <? lenvs) && (len >? 0)
  && (to_mlsize T len <=? to_mlsize T (lenvs - to_mlsize T idx)) = true
  <-> valid_slice s idx len.
Proof.
  unfold is_intnat, string_fits, valid_slice. intros Hi Hl Hs.
  generalize dependent (Z.of_nat (String.length s)). intros lenvs Hs.
  destruct (wordsize_pow T) as [HM0 HM].
  rewrite !andb_true_iff, Z.geb_le, Z.ltb_lt, Z.gtb_lt, Z.leb_le.
  destruct (Z.lt_ge_cases idx 0); [lia|].
  rewrite (to_mlsize_small T idx) by lia.
  destruct (Z.lt_ge_cases idx lenvs); [|lia].
  destruct (Z.lt_ge_cases 0 len); [|lia].
  rewrite (to_mlsize_small T len), (to_mlsize_small T (lenvs - idx)) by lia.
  lia.
Qed.

Lemma Long_val_long n st : Long_val (Val_long n) st = Done n st.
Proof. reflexivity. Qed.

Lemma caml_float_of_substring_run T B st vs s idx len :
  String_val vs st = Done s st ->
  caml_float_of_substring T B vs (Val_long idx) (Val_long len) st
  = parse_slice T B s idx
      (let lenvs := Z.of_nat (String.length s) in
       if (idx >=? 0) && (to_mlsize T idx <? lenvs) && (len >? 0)
          && (to_mlsize T len <=? to_mlsize T (lenvs - to_mlsize T idx))
       then to_mlsize T len else 0) st.
Proof.
  intros Hs. unfold caml_float_of_substring, caml_string_length, mbind, prim_bind.
  rewrite !Long_val_long, Hs. cbn [mret prim_ret]. now rewrite Hs.
Qed.

Lemma caml_float_of_substring_cleaned T B st vs s idx len :
  String_val vs st = Done s st ->
  is_intnat T idx -> is_intnat T len -> string_fits T s ->
  valid_slice s idx len ->
  caml_float_of_substring T B vs (Val_long idx) (Val_long len) st
  = convert_cleaned T B (delete_separators (slice s idx len)) st.
Proof.
  intros Hs Hi Hl Hfit Hv.
  rewrite (caml_float_of_substring_run _ _ _ _ _ _ _ Hs). cbv zeta.
  rewrite (proj2 (slice_check T s idx len Hi Hl Hfit) Hv).
  destruct (wordsize_pow T) as [HM0 HM].
  unfold valid_slice, is_intnat, string_fits in *.
  rewrite to_mlsize_small by lia.
  apply parse_slice_cleaned.
  rewrite strip_loop_spec by lia. reflexivity.
Qed.

Lemma convert_cleaned_empty T B st :
  convert_cleaned T B EmptyString st = Raise (Failure "float_of_string") st.
Proof. reflexivity. Qed.

(** ** What the conversion of the cleaned text returns *)

Lemma string_length_zero (s : string) : (String.length s =? 0)%nat = true <-> s = EmptyString.
Proof. destruct s; simpl; split; congruence. Qed.

Lemma convert_cleaned_fails T B st cleaned :
  cleaned = EmptyString \/
  snd (native_strtod B (c_string cleaned)) <> String.length cleaned ->
  convert_cleaned T B cleaned st = Raise (Failure "float_of_string") st.
Proof.
  intros H. unfold convert_cleaned.
  destruct (String.length cleaned =? 0)%nat eqn:E0; [reflexivity|].
  destruct H as [->|H]; [discriminate|].
  destruct (native_strtod B (c_string cleaned)) as [d e]. simpl in H.
  apply Nat.eqb_neq in H. now rewrite H.
Qed.

Lemma convert_cleaned_succeeds T B st cleaned :
  assert_double_size T ->
  cleaned <> EmptyString ->
  snd (native_strtod B (c_string cleaned)) = String.length cleaned ->
  returns_double T (convert_cleaned T B cleaned st)
    (fst (native_strtod B (c_string cleaned))).
Proof.
  intros HT Hne He. unfold convert_cleaned.
  destruct (String.length cleaned =? 0)%nat eqn:E0;
    [apply string_length_zero in E0; contradiction|].
  destruct (native_strtod B (c_string cleaned)) as [d e]. simpl in *.
  subst e. rewrite Nat.eqb_refl. simpl.
  destruct (box_then_unbox T d st HT) as (v & st' & Hc & Hv).
  exists v, st'. auto.
Qed.

(** ** Parsing *)

(** C6: [caml_float_of_string] raises [Failure "float_of_string"]
    exactly when the text without its separators is empty or the native
    parser does not stop at the end of that text; in every other case it
    returns a boxed float, which holds the number the parser read. *)
Theorem float_of_string_fails_exactly (T : target) (B : backend)
    (st : runtime) (vs : value) (s : string) :
  assert_double_size T ->
  String_val vs st = Done s st ->
  let cleaned := delete_separators s in
  let r := native_strtod B (c_string cleaned) in
  (fails_with (caml_float_of_string T B vs st) "float_of_string" st
   <-> cleaned = EmptyString \/ snd r <> String.length cleaned) /\
  (~ (cleaned = EmptyString \/ snd r <> String.length cleaned) ->
   returns_double T (caml_float_of_string T B vs st) (fst r)).
Proof.
  intros HT Hs cleaned r. unfold fails_with.
  rewrite (caml_float_of_string_cleaned T B st vs s Hs). fold cleaned.
  assert (Hok : ~ (cleaned = EmptyString \/ snd r <> String.length cleaned) ->
                returns_double T (convert_cleaned T B cleaned st) (fst r)).
  { intros Hn. apply convert_cleaned_succeeds; [exact HT| |].
    - intros E. apply Hn. now left.
    - destruct (Nat.eq_dec (snd r) (String.length cleaned)) as [E|E]; [exact E|].
      exfalso. apply Hn. now right. }
  split; [split|exact Hok].
  - intros Hfail.
    destruct (string_dec cleaned EmptyString) as [E|E]; [now left|].
    destruct (Nat.eq_dec (snd r) (String.length cleaned)) as [E'|E']; [|now right].
    exfalso. destruct Hok as (v & st' & Hdone & _); [tauto|]. congruence.
  - apply convert_cleaned_fails.
Qed.

Lemma float_of_string_fails_exactly_witness :
  fails_with (caml_float_of_string amd64 hosted (Ptr 0) (heap_of_string "abc"))
    "float_of_string" (heap_of_string "abc") /\
  fails_with (caml_float_of_string amd64 hosted (Ptr 0) (heap_of_string "12x"))
    "float_of_string" (heap_of_string "12x") /\
  returns_double amd64
    (caml_float_of_string amd64 hosted (Ptr 0) (heap_of_string "3.14"))
    0x40091EB851EB851F.
Proof.
  assert (HT : assert_double_size amd64) by (intros H; discriminate H).
  split; [|split].
  - apply (float_of_string_fails_exactly amd64 hosted (heap_of_string "abc")
             (Ptr 0) "abc" HT eq_refl).
    right. vm_compute. discriminate.
  - apply (float_of_string_fails_exactly amd64 hosted (heap_of_string "12x")
             (Ptr 0) "12x" HT eq_refl).
    right. vm_compute. discriminate.
  - apply (float_of_string_fails_exactly amd64 hosted (heap_of_string "3.14")
             (Ptr 0) "3.14" HT eq_refl).
    vm_compute. intros [H|H]; [discriminate H | now apply H].
Defined.

(** C7: the copy loop of the two parsing primitives hands the native
    parser the input, or the slice, with every ['_'] deleted and every
    other character kept in order. *)
Theorem float_of_string_strips_separators (T : target) (B : backend)
    (st : runtime) (vs : value) (s : string) :
  String_val vs st = Done s st ->
  (strip_loop s 0 (String.length s) EmptyString = Some (delete_separators s) /\
   caml_float_of_string T B vs st
   = convert_cleaned T B (delete_separators s) st) /\
  (forall idx len,
     is_intnat T idx -> is_intnat T len -> string_fits T s ->
     valid_slice s idx len ->
     strip_loop s idx (Z.to_nat len) EmptyString
     = Some (delete_separators (slice s idx len)) /\
     caml_float_of_substring T B vs (Val_long idx) (Val_long len) st
     = convert_cleaned T B (delete_separators (slice s idx len)) st).
Proof.
  intros Hs. split; [split|].
  - apply strip_loop_whole.
  - now apply caml_float_of_string_cleaned.
  - intros idx len Hi Hl Hfit Hv. split.
    + unfold valid_slice in Hv. rewrite strip_loop_spec by lia. reflexivity.
    + now apply caml_float_of_substring_cleaned.
Qed.

Lemma float_of_string_strips_separators_witness :
  caml_float_of_string amd64 hosted (Ptr 0) (heap_of_string "1_000.5")
  = convert_cleaned amd64 hosted "1000.5" (heap_of_string "1_000.5") /\
  returns_double amd64
    (caml_float_of_string amd64 hosted (Ptr 0) (heap_of_string "1_000.5"))
    0x408F440000000000 /\
  caml_float_of_substring amd64 hosted (Ptr 0) (Val_long 1) (Val_long 3)
    (heap_of_string "[2_5]")
  = convert_cleaned amd64 hosted "25" (heap_of_string "[2_5]").
Proof.
  destruct (float_of_string_strips_separators amd64 hosted
              (heap_of_string "1_000.5") (Ptr 0) "1_000.5" eq_refl)
    as [[_ Hwhole] _].
  destruct (float_of_string_strips_separators amd64 hosted
              (heap_of_string "[2_5]") (Ptr 0) "[2_5]" eq_refl)
    as [_ Hslice].
  split; [exact Hwhole|]. split.
  - rewrite Hwhole. exists (Ptr 1).
    exists {| heap := [Bytes "1_000.5"; Words Double_tag [0x408F440000000000]];
              stat_live := 0 |}.
    split; vm_compute; reflexivity.
  - refine (proj2 (Hslice 1 3 _ _ _ _)); vm_compute; intuition congruence.
Defined.

(** C9: for an index and a length that do not describe a non-empty
    slice of the string, [caml_float_of_substring] copies nothing, reads
    nothing of the string and raises [Failure "float_of_string"]. *)
Theorem float_of_substring_invalid_slice (T : target) (B : backend)
    (st : runtime) (vs : value) (s : string) (idx len : Z) :
  String_val vs st = Done s st ->
  is_intnat T idx -> is_intnat T len -> string_fits T s ->
  idx < 0 \/ idx >= Z.of_nat (String.length s) \/ len <= 0
  \/ len > Z.of_nat (String.length s) - idx ->
  fails_with (caml_float_of_substring T B vs (Val_long idx) (Val_long len) st)
    "float_of_string" st.
Proof.
  intros Hs Hi Hl Hfit Hbad. unfold fails_with.
  rewrite (caml_float_of_substring_run _ _ _ _ _ _ _ Hs). cbv zeta.
  match goal with
  | |- context [if ?c then _ else _] => destruct c eqn:E
  end.
  - apply (proj1 (slice_check T s idx len Hi Hl Hfit)) in E.
    unfold valid_slice in E. lia.
  - now rewrite (parse_slice_cleaned T B s idx 0 st EmptyString eq_refl).
Qed.

Lemma float_of_substring_invalid_slice_witness :
  fails_with (caml_float_of_substring amd64 hosted (Ptr 0) (Val_long 2) (Val_long 3)
                (heap_of_string "3.14"))
    "float_of_string" (heap_of_string "3.14") /\
  fails_with (caml_float_of_substring amd64 hosted (Ptr 0) (Val_long (-1)) (Val_long 2)
                (heap_of_string "3.14"))
    "float_of_string" (heap_of_string "3.14").
Proof.
  split.
  - apply (float_of_substring_invalid_slice amd64 hosted (heap_of_string "3.14")
             (Ptr 0) "3.14" 2 3 eq_refl); vm_compute; intuition congruence.
  - apply (float_of_substring_invalid_slice amd64 hosted (heap_of_string "3.14")
             (Ptr 0) "3.14" (-1) 2 eq_refl); vm_compute; intuition congruence.
Defined.

(** ** Formatting *)

Lemma decode_infinity d s :
  dbl_is_inf d = true -> sign_bit d = s -> decode d = S754_infinity s.
Proof.
  unfold dbl_is_inf, decode. intros H <-.
  apply andb_true_iff in H as [He Hm].
  apply Z.eqb_eq in He. rewrite He, Hm. reflexivity.
Qed.

Lemma returns_string_copy s st : returns_string (caml_copy_string s st) s.
Proof.
  destruct st as [h n]. unfold returns_string, caml_copy_string. simpl.
  eexists _, _. split; [reflexivity|].
  unfold String_val, mbind, prim_bind.
  now rewrite read_fresh_block.
Qed.

Lemma format_float_broken_printf T L st fmt arg d :
  HAS_BROKEN_PRINTF L = true -> boxed T st arg d -> isfinite d = false ->
  caml_format_float T (Hosted L) fmt arg st
  = (if isnan d then caml_copy_string "nan"
     else if ieee_lt 0 d then caml_copy_string "inf"
     else caml_copy_string "-inf") st.
Proof.
  unfold boxed, caml_format_float, mbind, prim_bind.
  intros -> -> ->. reflexivity.
Qed.

(** C8: in the broken-printf configuration [caml_format_float] does not
    call the formatter on a non-finite number: whatever the format, it
    returns the string "nan" for a NaN, "inf" for the positive and "-inf"
    for the negative infinity. *)
Theorem format_float_non_finite (T : target) (L : libc) (st : runtime)
    (fmt arg : value) (d : double) :
  HAS_BROKEN_PRINTF L = true ->
  boxed T st arg d ->
  (dbl_is_nan d = true ->
   returns_string (caml_format_float T (Hosted L) fmt arg st) "nan") /\
  (dbl_is_inf d = true -> sign_bit d = false ->
   returns_string (caml_format_float T (Hosted L) fmt arg st) "inf") /\
  (dbl_is_inf d = true -> sign_bit d = true ->
   returns_string (caml_format_float T (Hosted L) fmt arg st) "-inf").
Proof.
  intros HL Hd.
  pose proof (format_float_broken_printf T L st fmt arg d HL Hd) as Hrun.
  unfold isfinite, isnan, ieee_lt, SFltb in Hrun.
  change (decode 0) with (S754_zero false) in Hrun.
  split; [|split].
  - intros Hnan. apply decode_nan in Hnan. rewrite Hnan in Hrun.
    rewrite Hrun by reflexivity. apply returns_string_copy.
  - intros Hinf Hs. rewrite (decode_infinity d false Hinf Hs) in Hrun.
    rewrite Hrun by reflexivity. apply returns_string_copy.
  - intros Hinf Hs. rewrite (decode_infinity d true Hinf Hs) in Hrun.
    rewrite Hrun by reflexivity. apply returns_string_copy.
Qed.

Lemma format_float_non_finite_witness :
  returns_string
    (caml_format_float amd64 (Hosted (c_library true true)) (Ptr 1) (Ptr 0)
       (heap_of_format quiet_nan "%.3f")) "nan" /\
  returns_string
    (caml_format_float amd64 (Hosted (c_library true true)) (Ptr 1) (Ptr 0)
       (heap_of_format plus_infinity "%.3f")) "inf" /\
  returns_string
    (caml_format_float amd64 (Hosted (c_library true true)) (Ptr 1) (Ptr 0)
       (heap_of_format minus_infinity "%.3f")) "-inf".
Proof.
  pose proof (fun d => format_float_non_finite amd64 (c_library true true)
                         (heap_of_format d "%.3f") (Ptr 1) (Ptr 0) d
                         eq_refl eq_refl) as H.
  destruct (H quiet_nan) as (Hnan & _).
  destruct (H plus_infinity) as (_ & Hpos & _).
  destruct (H minus_infinity) as (_ & _ & Hneg).
  split; [exact (Hnan eq_refl)|].
  split; [exact (Hpos eq_refl eq_refl) | exact (Hneg eq_refl eq_refl)].
Defined.

(** ** The native parser and white space *)

(** The model of the C library's parser on a few texts whose doubles are
    known: 3.14, 0.1, 1e23, the largest double, the smallest subnormal,
    a tie that rounds to even, a hexadecimal constant, and texts that
    convert only in part or not at all. *)
Example c_strtod_examples :
  c_strtod "3.14" = (0x40091EB851EB851F, 4%nat) /\
  c_strtod "0.1" = (0x3FB999999999999A, 3%nat) /\
  c_strtod "1e23" = (0x44B52D02C7E14AF6, 4%nat) /\
  c_strtod "1.7976931348623157e308" = (0x7FEFFFFFFFFFFFFF, 22%nat) /\
  c_strtod "5e-324" = (min_subnormal, 6%nat) /\
  c_strtod "9007199254740993" = (0x4340000000000000, 16%nat) /\
  c_strtod "0x1.8p1" = (0x4008000000000000, 7%nat) /\
  c_strtod "  -1000.5x" = (0xC08F440000000000, 9%nat) /\
  c_strtod "-inF" = (minus_infinity, 4%nat) /\
  c_strtod "nan(abc)z" = (quiet_nan, 8%nat) /\
  c_strtod "1e+" = (one, 1%nat) /\
  c_strtod "12x" = (0x4028000000000000, 2%nat) /\
  c_strtod "abc" = (plus_zero, 0%nat) /\
  c_strtod "." = (plus_zero, 0%nat).
Proof. vm_compute. repeat split. Qed.

Ltac char_arith :=
  unfold xdigit_value, tolower; unfold isspace, isdigit, isalpha;
  match goal with |- context [char_code ?c] => generalize (char_code c) end;
  intros x;
  repeat match goal with
  | |- context [Z.leb ?a ?b] => destruct (Z.leb_spec a b); simpl
  | |- context [Z.eqb ?a ?b] => destruct (Z.eqb_spec a b); simpl
  end;
  try discriminate; intros; try reflexivity; try (exfalso; lia).

Lemma isdigit_not_space c : isdigit c = true -> isspace c = false.
Proof. char_arith. Qed.

Lemma isalpha_not_space c : isalpha c = true -> isspace c = false.
Proof. char_arith. Qed.

Lemma xdigit_not_space c v : xdigit_value c = Some v -> isspace c = false.
Proof. char_arith. Qed.

Lemma tolower_space c : isspace c = true -> tolower c = c.
Proof. char_arith. Qed.

Lemma tolower_not_space c m :
  tolower c = m -> isspace m = false -> isspace c = false.
Proof.
  intros E Hm. destruct (isspace c) eqn:Hc; [|reflexivity].
  rewrite (tolower_space c Hc) in E. congruence.
Qed.

Lemma no_space_app a b : no_space (a ++ b) = no_space a && no_space b.
Proof. induction a as [|c a IH]; simpl; [reflexivity|]. now rewrite IH, andb_assoc. Qed.

Lemma string_length_app (a b : string) :
  String.length (a ++ b) = (String.length a + String.length b)%nat.
Proof. induction a; simpl; congruence. Qed.

(** A reader consumed the prefix [p] of [s], which has [n] characters,
    none of them white space, and left [rest]. *)
Lemma read_digits_consumes s : forall acc n v n' rest,
  read_digits s acc n = (v, n', rest) ->
  exists p, s = (p ++ rest)%string /\ n' = (n + String.length p)%nat
            /\ no_space p = true.
Proof.
  induction s as [|c s IH]; intros acc n v n' rest H; simpl in H.
  - injection H as <- <- <-. exists EmptyString. simpl. auto.
  - destruct (isdigit c) eqn:Hc.
    + apply IH in H as (p & -> & -> & Hp).
      exists (String c p). simpl. rewrite (isdigit_not_space c Hc), Hp.
      repeat split. lia.
    + injection H as <- <- <-. exists EmptyString. simpl. auto.
Qed.

Lemma read_xdigits_consumes s : forall acc n v n' rest,
  read_xdigits s acc n = (v, n', rest) ->
  exists p, s = (p ++ rest)%string /\ n' = (n + String.length p)%nat
            /\ no_space p = true.
Proof.
  induction s as [|c s IH]; intros acc n v n' rest H; simpl in H.
  - injection H as <- <- <-. exists EmptyString. simpl. auto.
  - destruct (xdigit_value c) as [x|] eqn:Hc.
    + apply IH in H as (p & -> & -> & Hp).
      exists (String c p). simpl. rewrite (xdigit_not_space c x Hc), Hp.
      repeat split. lia.
    + injection H as <- <- <-. exists EmptyString. simpl. auto.
Qed.

Lemma read_sign_consumes s neg k rest :
  read_sign s = (neg, k, rest) ->
  exists p, s = (p ++ rest)%string /\ k = String.length p /\ no_space p = true.
Proof.
  unfold read_sign. destruct s as [|c s].
  - intros [= <- <- <-]. exists EmptyString. auto.
  - destruct (Ascii.eqb c "-") eqn:E1; [|destruct (Ascii.eqb c "+") eqn:E2].
    + apply Ascii.eqb_eq in E1 as ->. intros [= <- <- <-].
      exists (String "-" EmptyString). auto.
    + apply Ascii.eqb_eq in E2 as ->. intros [= <- <- <-].
      exists (String "+" EmptyString). auto.
    + intros [= <- <- <-]. exists EmptyString. auto.
Qed.

Lemma read_exponent_consumes marker s e n :
  isspace marker = false ->
  read_exponent marker s = (e, n) ->
  exists p rest, s = (p ++ rest)%string /\ n = String.length p /\ no_space p = true.
Proof.
  intros Hm. unfold read_exponent.
  assert (Hnone : exists p rest, s = (p ++ rest)%string /\ 0%nat = String.length p
                                 /\ no_space p = true)
    by (exists EmptyString, s; auto).
  destruct s as [|c s]; [now intros [= <- <-]|].
  destruct (Ascii.eqb (tolower c) marker) eqn:Ec; [|now intros [= <- <-]].
  apply Ascii.eqb_eq in Ec. pose proof (tolower_not_space c marker Ec Hm) as Hc.
  destruct (read_sign s) as [[neg k] r1] eqn:Hsign.
  destruct (read_digits r1 0 0) as [[v nd] r2] eqn:Hdig.
  destruct (nd =? 0)%nat; [now intros [= <- <-]|].
  intros [= <- <-].
  apply read_sign_consumes in Hsign as (p1 & -> & -> & Hp1).
  apply read_digits_consumes in Hdig as (p2 & -> & -> & Hp2).
  exists (String c (p1 ++ p2)), r2. simpl.
  rewrite Hc, no_space_app, Hp1, Hp2, string_length_app, string_app_assoc.
  auto.
Qed.

Lemma read_mantissa_consumes digits s m ni nf nd r :
  (forall s acc n v n' rest,
     digits s acc n = (v, n', rest) ->
     exists p, s = (p ++ rest)%string /\ n' = (n + String.length p)%nat
               /\ no_space p = true) ->
  read_mantissa digits s = (m, ni, nf, nd, r) ->
  exists p, s = (p ++ r)%string /\ (ni + nd + nf)%nat = String.length p
            /\ no_space p = true.
Proof.
  intros Hdigits. unfold read_mantissa.
  destruct (digits s 0 0%nat) as [[i ni'] r1] eqn:H1.
  apply Hdigits in H1 as (p1 & -> & -> & Hp1).
  assert (Hnodot : (i, String.length p1, 0%nat, 0%nat, r1) = (m, ni, nf, nd, r) ->
                   exists p, (p1 ++ r1)%string = (p ++ r)%string
                             /\ (ni + nd + nf)%nat = String.length p
                             /\ no_space p = true).
  { intros [= <- <- <- <- <-]. exists p1. repeat split; [lia | exact Hp1]. }
  destruct r1 as [|c r2]; [exact Hnodot|].
  destruct (Ascii.eqb c ".") eqn:Ec; [|exact Hnodot].
  apply Ascii.eqb_eq in Ec as ->.
  destruct (digits r2 i 0%nat) as [[m' nf'] r3] eqn:H2.
  apply Hdigits in H2 as (p2 & -> & -> & Hp2).
  intros [= <- <- <- <- <-].
  exists (p1 ++ String "." p2)%string.
  rewrite string_app_assoc, no_space_app, string_length_app. simpl.
  rewrite Hp1, Hp2. repeat split. lia.
Qed.

Lemma read_decimal_consumes neg s x n :
  read_decimal neg s = Some (x, n) ->
  exists p rest, s = (p ++ rest)%string /\ n = String.length p
                 /\ no_space p = true /\ (0 < n)%nat.
Proof.
  unfold read_decimal.
  destruct (read_mantissa read_digits s) as [[[[m ni] nf] nd] r] eqn:Hm.
  apply (read_mantissa_consumes _ _ _ _ _ _ _ read_digits_consumes)
    in Hm as (p1 & -> & Hlen & Hp1).
  destruct (ni + nf =? 0)%nat eqn:E0; [discriminate|].
  apply Nat.eqb_neq in E0.
  destruct (read_exponent "e" r) as [e ne] eqn:He.
  apply read_exponent_consumes in He as (p2 & rest & -> & -> & Hp2); [|reflexivity].
  intros [= <- <-].
  exists (p1 ++ p2)%string, rest.
  rewrite string_app_assoc, no_space_app, string_length_app, Hp1, Hp2.
  repeat split; lia.
Qed.

Lemma read_hexadecimal_consumes neg s x n :
  read_hexadecimal neg s = Some (x, n) ->
  exists p rest, s = (p ++ rest)%string /\ n = String.length p
                 /\ no_space p = true /\ (0 < n)%nat.
Proof.
  unfold read_hexadecimal.
  destruct s as [|c0 [|c1 r0]]; try discriminate.
  destruct (Ascii.eqb c0 "0") eqn:E0; [|discriminate].
  destruct (Ascii.eqb (tolower c1) "x") eqn:E1; [|discriminate]. simpl.
  apply Ascii.eqb_eq in E0 as ->. apply Ascii.eqb_eq in E1.
  pose proof (tolower_not_space c1 "x" E1 eq_refl) as Hc1.
  destruct (read_mantissa read_xdigits r0) as [[[[m ni] nf] nd] r] eqn:Hm.
  apply (read_mantissa_consumes _ _ _ _ _ _ _ read_xdigits_consumes)
    in Hm as (p1 & -> & Hlen & Hp1).
  destruct (ni + nf =? 0)%nat; [discriminate|].
  destruct (read_exponent "p" r) as [e ne] eqn:He.
  apply read_exponent_consumes in He as (p2 & rest & -> & -> & Hp2); [|reflexivity].
  intros [= <- <-].
  exists (String "0" (String c1 (p1 ++ p2))), rest. simpl.
  rewrite Hc1, string_app_assoc, no_space_app, string_length_app, Hp1, Hp2.
  repeat split; lia.
Qed.

Lemma prefix_nocase_consumes p : forall s r,
  no_space p = true ->
  prefix_nocase p s = Some r ->
  exists q, s = (q ++ r)%string /\ String.length q = String.length p
            /\ no_space q = true.
Proof.
  induction p as [|a p IH]; intros s r Hp H; simpl in *.
  - injection H as <-. exists EmptyString. auto.
  - destruct s as [|b s]; [discriminate|].
    apply andb_true_iff in Hp as [Ha Hp]. apply negb_true_iff in Ha.
    destruct (Ascii.eqb a (tolower b)) eqn:E; [|discriminate].
    apply Ascii.eqb_eq in E.
    apply IH in H as (q & -> & Hlen & Hq); [|exact Hp].
    exists (String b q). simpl.
    rewrite (tolower_not_space b a (eq_sym E) Ha), Hq, Hlen. auto.
Qed.

Lemma skip_nchars_consumes s : forall n n' rest,
  skip_nchars s n = (n', rest) ->
  exists p, s = (p ++ rest)%string /\ n' = (n + String.length p)%nat
            /\ no_space p = true.
Proof.
  induction s as [|c s IH]; intros n n' rest H; simpl in H.
  - injection H as <- <-. exists EmptyString. simpl. auto.
  - destruct (isdigit c || isalpha c || Ascii.eqb c "_") eqn:Hc.
    + apply IH in H as (p & -> & -> & Hp).
      assert (Hs : isspace c = false).
      { apply orb_true_iff in Hc as [Hc|Hc];
          [apply orb_true_iff in Hc as [Hc|Hc]|].
        - now apply isdigit_not_space.
        - now apply isalpha_not_space.
        - apply Ascii.eqb_eq in Hc as ->. reflexivity. }
      exists (String c p). simpl. rewrite Hs, Hp. repeat split. lia.
    + injection H as <- <-. exists EmptyString. simpl. auto.
Qed.

Lemma nan_suffix_consumes s :
  exists p rest, s = (p ++ rest)%string /\ nan_suffix s = String.length p
                 /\ no_space p = true.
Proof.
  assert (Hnone : exists p rest, s = (p ++ rest)%string /\ 0%nat = String.length p
                                 /\ no_space p = true)
    by (exists EmptyString, s; auto).
  unfold nan_suffix. destruct s as [|c s]; [exact Hnone|].
  destruct (Ascii.eqb c "(") eqn:Ec; [|exact Hnone].
  apply Ascii.eqb_eq in Ec as ->.
  destruct (skip_nchars s 0) as [n r] eqn:Hn.
  apply skip_nchars_consumes in Hn as (p & -> & -> & Hp).
  destruct r as [|c' r]; [exact Hnone|].
  destruct (Ascii.eqb c' ")") eqn:Ec'; [|exact Hnone].
  apply Ascii.eqb_eq in Ec' as ->.
  exists (String "(" (p ++ String ")" EmptyString)), r. simpl.
  rewrite string_app_assoc, no_space_app, string_length_app, Hp. simpl.
  repeat split. lia.
Qed.

Lemma read_special_consumes neg s x n :
  read_special neg s = Some (x, n) ->
  exists p rest, s = (p ++ rest)%string /\ n = String.length p
                 /\ no_space p = true /\ (0 < n)%nat.
Proof.
  unfold read_special.
  destruct (prefix_nocase "infinity" s) as [r|] eqn:H1.
  { intros [= <- <-].
    apply prefix_nocase_consumes in H1 as (q & -> & Hlen & Hq); [|reflexivity].
    exists q, r. simpl in Hlen. repeat split; auto; lia. }
  destruct (prefix_nocase "inf" s) as [r|] eqn:H2.
  { intros [= <- <-].
    apply prefix_nocase_consumes in H2 as (q & -> & Hlen & Hq); [|reflexivity].
    exists q, r. simpl in Hlen. repeat split; auto; lia. }
  destruct (prefix_nocase "nan" s) as [r|] eqn:H3; [|discriminate].
  intros [= <- <-].
  apply prefix_nocase_consumes in H3 as (q & -> & Hlen & Hq); [|reflexivity].
  destruct (nan_suffix_consumes r) as (p & rest & -> & -> & Hp).
  exists (q ++ p)%string, rest. simpl in Hlen.
  rewrite string_app_assoc, no_space_app, string_length_app, Hq, Hp.
  repeat split; lia.
Qed.

Lemma read_subject_consumes neg s x n :
  read_subject neg s = Some (x, n) ->
  exists p rest, s = (p ++ rest)%string /\ n = String.length p
                 /\ no_space p = true /\ (0 < n)%nat.
Proof.
  unfold read_subject.
  destruct (read_hexadecimal neg s) as [r|] eqn:Hh.
  { intros [= ->]. now apply read_hexadecimal_consumes in Hh. }
  destruct (read_decimal neg s) as [r|] eqn:Hd.
  { intros [= ->]. now apply read_decimal_consumes in Hd. }
  apply read_special_consumes.
Qed.

Lemma skip_space_consumes s : forall n n' rest,
  skip_space s n = (n', rest) ->
  exists w, s = (w ++ rest)%string /\ n' = (n + String.length w)%nat
            /\ all_space w = true.
Proof.
  induction s as [|c s IH]; intros n n' rest H; simpl in H.
  - injection H as <- <-. exists EmptyString. simpl. auto.
  - destruct (isspace c) eqn:Hc.
    + apply IH in H as (w & -> & -> & Hw).
      exists (String c w). simpl. rewrite Hc, Hw. repeat split. lia.
    + injection H as <- <-. exists EmptyString. simpl. auto.
Qed.

(** The shape of a conversion: white space, then a sign and a subject
    sequence that hold no white space; the parser stops behind them. *)
Lemma c_strtod_consumes s d k :
  c_strtod s = (d, k) ->
  k = 0%nat \/
  exists w body rest,
    s = (w ++ body ++ rest)%string /\
    k = (String.length w + String.length body)%nat /\
    all_space w = true /\ no_space body = true /\ body <> EmptyString.
Proof.
  unfold c_strtod.
  destruct (skip_space s 0) as [nw r0] eqn:Hw.
  destruct (read_sign r0) as [[neg ns] r1] eqn:Hs.
  destruct (read_subject neg r1) as [[x n]|] eqn:Hx.
  - intros [= <- <-]. right.
    apply skip_space_consumes in Hw as (w & -> & -> & Hw).
    apply read_sign_consumes in Hs as (p1 & -> & -> & Hp1).
    apply read_subject_consumes in Hx as (p2 & rest & -> & -> & Hp2 & Hpos).
    exists w, (p1 ++ p2)%string, rest.
    rewrite string_app_assoc, no_space_app, string_length_app, Hp1, Hp2.
    repeat split; auto; [lia|].
    intros E. apply (f_equal String.length) in E.
    rewrite string_length_app in E. simpl in E. lia.
  - intros [= <- <-]. now left.
Qed.

Lemma c_string_length s : (String.length (c_string s) <= String.length s)%nat.
Proof.
  induction s as [|c s IH]; simpl; [lia|].
  destruct (Ascii.eqb c NUL); simpl; lia.
Qed.

Lemma c_string_full s :
  String.length (c_string s) = String.length s -> c_string s = s.
Proof.
  induction s as [|c s IH]; simpl; [reflexivity|].
  destruct (Ascii.eqb c NUL); simpl; [discriminate|].
  intros [= H]. now rewrite IH.
Qed.

Lemma c_string_leading_space ws r :
  all_space ws = true -> c_string (ws ++ r) = (ws ++ c_string r)%string.
Proof.
  induction ws as [|c ws IH]; simpl; [reflexivity|].
  intros H. apply andb_true_iff in H as [Hc Hws].
  destruct (Ascii.eqb c NUL) eqn:E.
  - apply Ascii.eqb_eq in E as ->. discriminate Hc.
  - now rewrite IH.
Qed.

Lemma delete_separators_space ws :
  all_space ws = true -> delete_separators ws = ws.
Proof.
  induction ws as [|c ws IH]; [reflexivity|].
  simpl. intros H. apply andb_true_iff in H as [Hc Hws].
  rewrite delete_separators_cons, IH by exact Hws.
  destruct (Ascii.eqb c "_") eqn:E; [|reflexivity].
  apply Ascii.eqb_eq in E as ->. discriminate Hc.
Qed.

Lemma ends_with_space_snoc t c :
  ends_with_space (t ++ String c EmptyString) = isspace c.
Proof.
  induction t as [|a t IH]; simpl; [reflexivity|].
  rewrite <- IH. destruct (t ++ String c EmptyString)%string eqn:E; [|reflexivity].
  destruct t; discriminate.
Qed.

Lemma ends_with_space_app a b :
  b <> EmptyString -> ends_with_space (a ++ b) = ends_with_space b.
Proof.
  intros Hb. induction a as [|c a IH]; simpl; [reflexivity|].
  rewrite <- IH. destruct (a ++ b)%string eqn:E; [|reflexivity].
  destruct a; simpl in E; [contradiction | discriminate].
Qed.

Lemma no_space_ends s : no_space s = true -> ends_with_space s = false.
Proof.
  induction s as [|c s IH]; simpl; [reflexivity|].
  intros H. apply andb_true_iff in H as [Hc Hs]. apply negb_true_iff in Hc.
  destruct s; [exact Hc | now apply IH].
Qed.

(** The parser never stops behind white space at the end of its input. *)
Lemma c_strtod_trailing_space cleaned :
  ends_with_space cleaned = true ->
  snd (c_strtod (c_string cleaned)) <> String.length cleaned.
Proof.
  intros He Hk.
  destruct (c_strtod (c_string cleaned)) as [d k] eqn:Hrun. simpl in Hk.
  pose proof (c_string_length cleaned) as Hle.
  apply c_strtod_consumes in Hrun as [->|(w & body & rest & Hu & -> & Hw & Hb & Hne)].
  - destruct cleaned; [discriminate He | discriminate Hk].
  - assert (Hlen : String.length (c_string cleaned)
                   = (String.length w + String.length body + String.length rest)%nat)
      by (rewrite Hu, !string_length_app; lia).
    assert (Hfull : c_string cleaned = cleaned) by (apply c_string_full; lia).
    assert (Hrest : rest = EmptyString) by (destruct rest; [reflexivity | simpl in Hlen; lia]).
    rewrite Hfull, Hrest, string_app_empty_r in Hu.
    rewrite Hu, ends_with_space_app, no_space_ends in He by assumption.
    discriminate.
Qed.

Lemma skip_space_acc s : forall n,
  skip_space s n = ((n + fst (skip_space s 0))%nat, snd (skip_space s 0)).
Proof.
  induction s as [|c s IH]; intros n; simpl.
  - f_equal. lia.
  - destruct (isspace c); [|simpl; f_equal; lia].
    rewrite (IH (S n)), (IH 1%nat). simpl. f_equal. lia.
Qed.

Lemma skip_space_leading ws r n :
  all_space ws = true -> skip_space (ws ++ r) n = skip_space r (n + String.length ws).
Proof.
  revert n. induction ws as [|c ws IH]; intros n H; simpl in *.
  - f_equal. lia.
  - apply andb_true_iff in H as [-> Hws]. rewrite IH by exact Hws. f_equal. lia.
Qed.

(** Leading white space is skipped: it only moves the end pointer. *)
Lemma c_strtod_leading_space ws r :
  all_space ws = true ->
  snd (c_strtod r) <> 0%nat ->
  c_strtod (ws ++ r)
  = (fst (c_strtod r), (String.length ws + snd (c_strtod r))%nat).
Proof.
  intros Hws. unfold c_strtod.
  rewrite (skip_space_leading ws r 0 Hws).
  rewrite (skip_space_acc r (0 + String.length ws)).
  destruct (skip_space r 0) as [nw r0]. cbn [fst snd].
  destruct (read_sign r0) as [[neg ns] r1].
  destruct (read_subject neg r1) as [[x n]|]; cbn [fst snd].
  - intros _. f_equal. lia.
  - intros H. now contradiction H.
Qed.

Lemma convert_cleaned_done T B st cleaned v st' :
  convert_cleaned T B cleaned st = Done v st' ->
  cleaned <> EmptyString /\
  snd (native_strtod B (c_string cleaned)) = String.length cleaned /\
  caml_copy_double T (fst (native_strtod B (c_string cleaned))) st = Done v st'.
Proof.
  unfold convert_cleaned.
  destruct (String.length cleaned =? 0)%nat eqn:E0; [discriminate|].
  destruct (native_strtod B (c_string cleaned)) as [d e]. simpl.
  destruct (e =? String.length cleaned)%nat eqn:E1; simpl; [|discriminate].
  intros H. apply Nat.eqb_eq in E1. repeat split; auto.
  intros ->. discriminate E0.
Qed.

Lemma returns_double_convert T B st cleaned d :
  assert_double_size T ->
  returns_double T (convert_cleaned T B cleaned st) d ->
  cleaned <> EmptyString /\
  native_strtod B (c_string cleaned) = (d, String.length cleaned).
Proof.
  intros HT (v & st' & Hrun & Hbox).
  apply convert_cleaned_done in Hrun as (Hne & Hlen & Hcopy).
  split; [exact Hne|].
  destruct (native_strtod B (c_string cleaned)) as [d' e]. simpl in *.
  destruct (box_then_unbox T d' st HT) as (v' & st'' & Hc & Hb).
  rewrite Hcopy in Hc. injection Hc as <- <-.
  unfold boxed in *. rewrite Hbox in Hb. injection Hb as ->. now subst e.
Qed.

(** C10: with the parser of the C library, white space in front of a
    text that parses is accepted and the number is the same, while any
    text that ends in white space is rejected. *)
Theorem float_of_string_white_space (T : target) (L : libc) (st : runtime)
    (vs vws vsw : value) (s ws : string) (c : ascii) (d : double) :
  assert_double_size T ->
  strtod L = c_strtod ->
  String_val vs st = Done s st ->
  String_val vws st = Done (ws ++ s)%string st ->
  String_val vsw st = Done (s ++ String c EmptyString)%string st ->
  all_space ws = true -> isspace c = true ->
  (returns_double T (caml_float_of_string T (Hosted L) vs st) d ->
   returns_double T (caml_float_of_string T (Hosted L) vws st) d) /\
  fails_with (caml_float_of_string T (Hosted L) vsw st) "float_of_string" st.
Proof.
  intros HT HL Hs Hws Hsw Hspace Hc. split.
  - rewrite (caml_float_of_string_cleaned _ _ _ _ _ Hs),
            (caml_float_of_string_cleaned _ _ _ _ _ Hws).
    intros Hok. apply returns_double_convert in Hok as [Hne Hrun]; [|exact HT].
    simpl in Hrun. rewrite HL in Hrun.
    rewrite delete_separators_app, (delete_separators_space ws Hspace).
    set (cleaned := delete_separators s) in *.
    assert (Hrun' : c_strtod (c_string (ws ++ cleaned))
                    = (d, String.length (ws ++ cleaned)%string)).
    { rewrite (c_string_leading_space ws cleaned Hspace).
      rewrite (c_strtod_leading_space ws (c_string cleaned) Hspace).
      - now rewrite Hrun, string_length_app.
      - rewrite Hrun. cbn [snd]. destruct cleaned; [contradiction | discriminate]. }
    replace d with (fst (native_strtod (Hosted L) (c_string (ws ++ cleaned))))
      by (simpl; now rewrite HL, Hrun').
    apply convert_cleaned_succeeds; [exact HT| |].
    + destruct ws; [exact Hne | discriminate].
    + simpl. now rewrite HL, Hrun'.
  - unfold fails_with.
    rewrite (caml_float_of_string_cleaned _ _ _ _ _ Hsw).
    apply convert_cleaned_fails. right. simpl. rewrite HL.
    apply c_strtod_trailing_space.
    rewrite delete_separators_app, ends_with_space_app.
    + rewrite delete_separators_cons.
      destruct (Ascii.eqb c "_") eqn:E; [|exact Hc].
      apply Ascii.eqb_eq in E as ->. discriminate Hc.
    + rewrite delete_separators_cons.
      destruct (Ascii.eqb c "_") eqn:E; [|discriminate].
      apply Ascii.eqb_eq in E as ->. discriminate Hc.
Qed.

Lemma float_of_string_white_space_witness :
  returns_double amd64 (caml_float_of_string amd64 hosted (Ptr 1) pi_texts)
    0x40091EB851EB851F /\
  fails_with (caml_float_of_string amd64 hosted (Ptr 2) pi_texts)
    "float_of_string" pi_texts.
Proof.
  assert (HT : assert_double_size amd64) by (intros H; discriminate H).
  destruct (float_of_string_white_space amd64 (c_library false true) pi_texts
              (Ptr 0) (Ptr 1) (Ptr 2) "3.14" " " " " 0x40091EB851EB851F
              HT eq_refl eq_refl eq_refl eq_refl eq_refl eq_refl)
    as [Hlead Htrail].
  split; [|exact Htrail].
  apply Hlead.
  exists (Ptr 3).
  exists {| heap := heap pi_texts ++ [Words Double_tag [0x40091EB851EB851F]];
            stat_live := 0 |}.
  split; vm_compute; reflexivity.
Defined.

(** * Further properties *)

Example caml_hypot_examples :
  caml_hypot None three four = 0x4014000000000000 /\
  caml_hypot None minus_one plus_zero = one /\
  caml_copysign sparc32 None three minus_one = 0xC008000000000000.
Proof. vm_compute. repeat split. Qed.

(** ** Boxes in the heap *)

Lemma Field_outcome v i st :
  Field v i st
  = match v with
    | Ptr a =>
        match heap st !! a with
        | Some (Words _ fs) =>
            match fs !! i with Some w => Done w st | None => Undefined end
        | _ => Undefined
        end
    | Val_long _ => Undefined
    end.
Proof.
  unfold Field, read_block, mbind, prim_bind, lift_option, undefined, mret, prim_ret.
  destruct v as [n|a]; [reflexivity|].
  destruct (heap st !! a) as [[t fs|s]|]; try reflexivity.
  now destruct (fs !! i).
Qed.

Lemma boxed_fields T st v d :
  boxed T st v d <->
  exists a t fs, v = Ptr a /\ heap st !! a = Some (Words t fs)
                 /\ double_of_fields T fs = Some d.
Proof.
  unfold boxed, double_of_fields, Double_val, caml_Double_val, mbind, prim_bind,
    mret, prim_ret.
  split.
  - intros H.
    assert (Hv : exists a t fs, v = Ptr a /\ heap st !! a = Some (Words t fs)).
    { destruct v as [n|a].
      - exfalso. destruct (ARCH_ALIGN_DOUBLE T), (ARCH_SIXTYFOUR T);
          rewrite Field_outcome in H; discriminate.
      - destruct (heap st !! a) as [[t fs|s]|] eqn:Ha; [eauto | |];
          exfalso; destruct (ARCH_ALIGN_DOUBLE T), (ARCH_SIXTYFOUR T);
          rewrite Field_outcome, Ha in H; discriminate. }
    destruct Hv as (a & t & fs & -> & Ha). exists a, t, fs.
    split; [reflexivity|]. split; [exact Ha|].
    revert H.
    destruct (ARCH_ALIGN_DOUBLE T), (ARCH_SIXTYFOUR T); cbn [orb negb];
      rewrite Field_outcome, Ha;
      destruct (fs !! 0%nat) as [v0|]; try discriminate;
      try (rewrite Field_outcome, Ha);
      try (destruct (fs !! 1%nat) as [v1|]; try discriminate);
      intros [= <-]; reflexivity.
  - intros (a & t & fs & -> & Ha & Hd). revert Hd.
    destruct (ARCH_ALIGN_DOUBLE T), (ARCH_SIXTYFOUR T); cbn [orb negb];
      rewrite Field_outcome, Ha;
      destruct (fs !! 0%nat) as [v0|]; try discriminate;
      try (rewrite Field_outcome, Ha);
      try (destruct (fs !! 1%nat) as [v1|]; try discriminate);
      intros [= <-]; reflexivity.
Qed.

Lemma boxed_frame T st st' v d ext :
  heap st' = heap st ++ ext -> boxed T st v d -> boxed T st' v d.
Proof.
  intros Hext Hb. apply boxed_fields in Hb as (a & t & fs & -> & Ha & Hd).
  apply boxed_fields. exists a, t, fs. repeat split; [|exact Hd].
  rewrite Hext. now apply lookup_app_l_Some.
Qed.

Lemma caml_copy_double_undefined T d st :
  ARCH_ALIGN_DOUBLE T = true -> ARCH_SIXTYFOUR T = true ->
  caml_copy_double T d st = Undefined.
Proof.
  intros HA H64.
  unfold caml_copy_double, Alloc_small, Store_double_val, caml_Store_double_val,
    Double_wosize, mbind, prim_bind.
  rewrite HA, H64. cbn [replicate].
  rewrite Store_field_fresh by (simpl; lia).
  unfold Store_field. cbn [heap]. rewrite list_lookup_middle by reflexivity.
  match goal with
  | |- context [decide ?P] => destruct (decide P) as [Hlt|_]
  end; [rewrite length_insert in Hlt; simpl in Hlt; lia | reflexivity].
Qed.

Lemma caml_copy_double_outcome T d st :
  (assert_double_size T /\
   exists b, caml_copy_double T d st
             = Done (Ptr (length (heap st)))
                 {| heap := heap st ++ [b]; stat_live := stat_live st |}
             /\ exists t fs, b = Words t fs /\ double_of_fields T fs = Some d)
  \/ (~ assert_double_size T /\ caml_copy_double T d st = Undefined).
Proof.
  destruct (ARCH_ALIGN_DOUBLE T) eqn:HA, (ARCH_SIXTYFOUR T) eqn:H64.
  - right. split; [|now apply caml_copy_double_undefined].
    intros HT. specialize (HT HA). congruence.
  - left. assert (HT : assert_double_size T) by (intros _; exact H64).
    split; [exact HT|]. eexists. split; [apply caml_copy_double_layout, HT|].
    rewrite H64. eexists _, _. split; [reflexivity|].
    unfold double_of_fields. rewrite HA. cbn. now rewrite union_roundtrip.
  - left. assert (HT : assert_double_size T) by (intros E; congruence).
    split; [exact HT|]. eexists. split; [apply caml_copy_double_layout, HT|].
    rewrite H64. eexists _, _. split; [reflexivity|].
    unfold double_of_fields. rewrite HA, H64. reflexivity.
  - left. assert (HT : assert_double_size T) by (intros E; congruence).
    split; [exact HT|]. eexists. split; [apply caml_copy_double_layout, HT|].
    rewrite H64. eexists _, _. split; [reflexivity|].
    unfold double_of_fields. rewrite HA, H64. cbn. now rewrite union_roundtrip.
Qed.


Lemma caml_copy_double_done T st d :
  assert_double_size T ->
  exists v st', caml_copy_double T d st = Done v st' /\ boxed T st' v d
                /\ stat_live st' = stat_live st
                /\ forall u x, boxed T st u x -> boxed T st' u x.
Proof.
  intros HT.
  destruct (caml_copy_double_outcome T d st)
    as [(_ & b & Hdone & t & fs & -> & Hfs) | (Hn & _)]; [|contradiction].
  eexists _, _. split; [exact Hdone|]. split; [|split; [reflexivity|]].
  - apply boxed_fields. exists (length (heap st)), t, fs.
    repeat split; [|exact Hfs]. cbn [heap]. now rewrite list_lookup_middle.
  - intros u x Hu. now apply (boxed_frame T st _ u x [Words t fs]).
Qed.



(** X2: on a 64-bit target that defines [ARCH_ALIGN_DOUBLE] the size
    assertion of the marshalling functions fails, and boxing writes
    outside the one-word block: its behaviour is undefined. *)
Theorem copy_double_needs_assertion (T : target) (d : double) (st : runtime) :
  ARCH_ALIGN_DOUBLE T = true -> ARCH_SIXTYFOUR T = true ->
  caml_copy_double T d st = Undefined.
Proof. intros HA H64. now apply caml_copy_double_undefined. Qed.

Lemma copy_double_needs_assertion_witness :
  caml_copy_double aligned64 one empty_runtime = Undefined.
Proof.
  exact (copy_double_needs_assertion aligned64 one empty_runtime eq_refl eq_refl).
Defined.




(** ** More on the comparisons *)

Lemma SFcompare_refl x : x <> S754_nan -> SFcompare x x = Some Eq.
Proof.
  destruct x as [[]|[]| |[] m e]; simpl; try reflexivity; try congruence;
    intros _; rewrite Z.compare_refl;
    change (PosDef.Pos.compare_cont Eq m m) with (Pos.compare m m);
    now rewrite Pos.compare_refl.
Qed.

(** X4: in a hosted build a boxed float is equal to itself exactly when
    it is not a NaN. *)
Theorem eq_float_reflexive_unless_nan (T : target) (L : libc) (st : runtime)
    (vf : value) (f : double) :
  boxed T st vf f ->
  caml_eq_float T (Hosted L) vf vf st = Done (Val_bool (negb (dbl_is_nan f))) st /\
  caml_neq_float T (Hosted L) vf vf st = Done (Val_bool (dbl_is_nan f)) st.
Proof.
  intros Hf.
  destruct (relational_hosted T L st vf vf f f Hf Hf) as (Heq & Hne & _).
  rewrite Heq, Hne. unfold op_ne, op_eq, ieee_eq, SFeqb.
  destruct (dbl_is_nan f) eqn:Hn.
  - apply decode_nan in Hn. rewrite Hn. now split.
  - apply not_nan_decode in Hn. rewrite (SFcompare_refl _ Hn). now split.
Qed.

Lemma eq_float_reflexive_unless_nan_witness :
  caml_eq_float amd64 hosted (Ptr 1) (Ptr 1) one_nan_zero
  = Done (Val_bool false) one_nan_zero /\
  caml_neq_float amd64 hosted (Ptr 1) (Ptr 1) one_nan_zero
  = Done (Val_bool true) one_nan_zero.
Proof.
  exact (eq_float_reflexive_unless_nan amd64 (c_library false true) one_nan_zero
           (Ptr 1) quiet_nan eq_refl).
Defined.

(** X5: in a hosted build, for operands that are not NaN exactly one of
    [lt], [eq] and [gt] returns true, and [le] returns true exactly when
    [lt] or [eq] does; with a NaN operand none of the three does. *)
Theorem relational_trichotomy (T : target) (L : libc) (st : runtime)
    (vf vg : value) (f g : double) :
  boxed T st vf f -> boxed T st vg g ->
  exists lt eq gt : bool,
    caml_lt_float T (Hosted L) vf vg st = Done (Val_bool lt) st /\
    caml_eq_float T (Hosted L) vf vg st = Done (Val_bool eq) st /\
    caml_gt_float T (Hosted L) vf vg st = Done (Val_bool gt) st /\
    caml_le_float T (Hosted L) vf vg st = Done (Val_bool (lt || eq)) st /\
    caml_ge_float T (Hosted L) vf vg st = Done (Val_bool (gt || eq)) st /\
    (if dbl_is_nan f || dbl_is_nan g
     then lt = false /\ eq = false /\ gt = false
     else (lt, eq, gt) = (true, false, false) \/ (lt, eq, gt) = (false, true, false)
          \/ (lt, eq, gt) = (false, false, true)).
Proof.
  intros Hf Hg.
  destruct (relational_hosted T L st vf vg f g Hf Hg)
    as (Heq & _ & Hle & Hlt & Hge & Hgt).
  rewrite Heq, Hle, Hlt, Hge, Hgt.
  unfold op_ge, op_gt, op_le, op_lt, op_eq, ieee_eq, ieee_lt, ieee_le,
    SFeqb, SFltb, SFleb.
  rewrite (SFcompare_antisym (decode f) (decode g)).
  eexists _, _, _. split; [reflexivity|]. split; [reflexivity|].
  split; [reflexivity|].
  destruct (dbl_is_nan f) eqn:Hnf; [|destruct (dbl_is_nan g) eqn:Hng].
  - apply decode_nan in Hnf. rewrite SFcompare_nan by auto. now repeat split.
  - apply decode_nan in Hng. rewrite SFcompare_nan by auto. now repeat split.
  - apply not_nan_decode in Hnf, Hng.
    destruct (SFcompare_ordered _ _ Hnf Hng) as [c ->].
    destruct c; cbn; repeat split; auto.
Qed.

Lemma relational_trichotomy_witness :
  exists lt eq gt : bool,
    caml_lt_float amd64 hosted (Ptr 2) (Ptr 0) one_nan_zero = Done (Val_bool lt) one_nan_zero /\
    caml_eq_float amd64 hosted (Ptr 2) (Ptr 0) one_nan_zero = Done (Val_bool eq) one_nan_zero /\
    caml_gt_float amd64 hosted (Ptr 2) (Ptr 0) one_nan_zero = Done (Val_bool gt) one_nan_zero /\
    caml_le_float amd64 hosted (Ptr 2) (Ptr 0) one_nan_zero
    = Done (Val_bool (lt || eq)) one_nan_zero /\
    caml_ge_float amd64 hosted (Ptr 2) (Ptr 0) one_nan_zero
    = Done (Val_bool (gt || eq)) one_nan_zero /\
    (if dbl_is_nan plus_zero || dbl_is_nan one
     then lt = false /\ eq = false /\ gt = false
     else (lt, eq, gt) = (true, false, false) \/ (lt, eq, gt) = (false, true, false)
          \/ (lt, eq, gt) = (false, false, true)).
Proof.
  exact (relational_trichotomy amd64 (c_library false true) one_nan_zero
           (Ptr 2) (Ptr 0) plus_zero one eq_refl eq_refl).
Defined.

(** X6: in a hosted build the three-way comparison agrees with the
    relational primitives: it returns -1 exactly when [lt] returns true,
    1 exactly when [gt] does, and 0 whenever [eq] does. *)
Theorem compare_agrees_with_relational (T : target) (L : libc) (st : runtime)
    (vf vg : value) (f g : double) :
  boxed T st vf f -> boxed T st vg g ->
  exists r,
    compare_returns T (Hosted L) st vf vg r /\
    caml_lt_float T (Hosted L) vf vg st = Done (Val_bool (r =? -1)) st /\
    caml_gt_float T (Hosted L) vf vg st = Done (Val_bool (r =? 1)) st /\
    (caml_eq_float T (Hosted L) vf vg st = Done (Val_bool true) st -> r = 0).
Proof.
  intros Hf Hg.
  destruct (relational_hosted T L st vf vg f g Hf Hg)
    as (Heq & _ & _ & Hlt & _ & Hgt).
  exists (compare_code (SFcompare (decode f) (decode g))).
  split; [now apply caml_float_compare_hosted|].
  rewrite Heq, Hlt, Hgt.
  unfold op_gt, op_lt, op_eq, ieee_eq, ieee_lt, SFeqb, SFltb.
  rewrite (SFcompare_antisym (decode f) (decode g)).
  destruct (SFcompare (decode f) (decode g)) as [[]|]; cbn;
    repeat split; auto; intros [= ?]; discriminate.
Qed.

Lemma compare_agrees_with_relational_witness :
  exists r,
    compare_returns amd64 hosted one_nan_zero (Ptr 2) (Ptr 0) r /\
    caml_lt_float amd64 hosted (Ptr 2) (Ptr 0) one_nan_zero
    = Done (Val_bool (r =? -1)) one_nan_zero /\
    caml_gt_float amd64 hosted (Ptr 2) (Ptr 0) one_nan_zero
    = Done (Val_bool (r =? 1)) one_nan_zero /\
    (caml_eq_float amd64 hosted (Ptr 2) (Ptr 0) one_nan_zero
     = Done (Val_bool true) one_nan_zero -> r = 0).
Proof.
  exact (compare_agrees_with_relational amd64 (c_library false true) one_nan_zero
           (Ptr 2) (Ptr 0) plus_zero one eq_refl eq_refl).
Defined.

(** ** The sign bit *)

Lemma fields_of_low_bits a b :
  (forall n, 0 <= n < 63 -> Z.testbit a n = Z.testbit b n) ->
  exponent_field a = exponent_field b /\ mantissa_field a = mantissa_field b.
Proof.
  intros H. unfold exponent_field, mantissa_field.
  change 0x7FF with (Z.ones 11).
  split; apply Z.bits_inj'; intros n Hn.
  - rewrite !Z.land_spec, !Z.shiftr_spec, testbit_ones by lia.
    destruct (Z.ltb_spec n 11).
    + now rewrite H by lia.
    + now rewrite !andb_false_r.
  - rewrite !Z.land_spec, testbit_ones by lia.
    destruct (Z.ltb_spec n 52).
    + now rewrite H by lia.
    + now rewrite !andb_false_r.
Qed.

Lemma testbit_sign_mask n :
  0 <= n -> Z.testbit 0x8000000000000000 n = (n =? 63).
Proof.
  intros Hn. change 0x8000000000000000 with (2 ^ 63).
  rewrite Z.pow2_bits_eqb by lia. apply Z.eqb_sym.
Qed.

Lemma testbit_magnitude_mask n :
  0 <= n -> Z.testbit 0x7FFFFFFFFFFFFFFF n = (n <? 63).
Proof. intros Hn. change 0x7FFFFFFFFFFFFFFF with (Z.ones 63). apply testbit_ones; lia. Qed.

Lemma ieee_neg_bits x n :
  0 <= n -> Z.testbit (ieee_neg x) n = xorb (Z.testbit x n) (n =? 63).
Proof. intros Hn. unfold ieee_neg. now rewrite Z.lxor_spec, testbit_sign_mask. Qed.

Lemma fabs_bits x n :
  0 <= n -> Z.testbit (fabs x) n = Z.testbit x n && (n <? 63).
Proof. intros Hn. unfold fabs. now rewrite Z.land_spec, testbit_magnitude_mask. Qed.

Lemma copysign_bits x y n :
  0 <= n ->
  Z.testbit (copysign x y) n
  = if n =? 63 then Z.testbit y 63 else Z.testbit x n && (n <? 63).
Proof.
  intros Hn. unfold copysign.
  rewrite Z.lor_spec, !Z.land_spec, testbit_magnitude_mask, testbit_sign_mask by lia.
  destruct (Z.eqb_spec n 63) as [->|Hne].
  - now rewrite andb_false_r, andb_true_r.
  - now rewrite andb_false_r, orb_false_r.
Qed.

Lemma ieee_neg_fields x :
  sign_bit (ieee_neg x) = negb (sign_bit x) /\
  exponent_field (ieee_neg x) = exponent_field x /\
  mantissa_field (ieee_neg x) = mantissa_field x.
Proof.
  split.
  - unfold sign_bit. rewrite ieee_neg_bits by lia. apply xorb_true_r.
  - apply fields_of_low_bits. intros n Hn. rewrite ieee_neg_bits by lia.
    replace (n =? 63) with false by (symmetry; apply Z.eqb_neq; lia).
    apply xorb_false_r.
Qed.

Lemma fabs_fields x :
  sign_bit (fabs x) = false /\
  exponent_field (fabs x) = exponent_field x /\
  mantissa_field (fabs x) = mantissa_field x.
Proof.
  split.
  - unfold sign_bit. rewrite fabs_bits by lia. apply andb_false_r.
  - apply fields_of_low_bits. intros n Hn. rewrite fabs_bits by lia.
    replace (n <? 63) with true by (symmetry; apply Z.ltb_lt; lia).
    apply andb_true_r.
Qed.

Lemma copysign_fields x y :
  sign_bit (copysign x y) = sign_bit y /\
  exponent_field (copysign x y) = exponent_field x /\
  mantissa_field (copysign x y) = mantissa_field x.
Proof.
  split.
  - unfold sign_bit. now rewrite copysign_bits by lia.
  - apply fields_of_low_bits. intros n Hn. rewrite copysign_bits by lia.
    replace (n =? 63) with false by (symmetry; apply Z.eqb_neq; lia).
    replace (n <? 63) with true by (symmetry; apply Z.ltb_lt; lia).
    apply andb_true_r.
Qed.

(** The number of a bit pattern is a function of its three fields. *)
Lemma decode_of_fields a b (f : bool -> bool) :
  sign_bit a = f (sign_bit b) ->
  exponent_field a = exponent_field b ->
  mantissa_field a = mantissa_field b ->
  decode a
  = match decode b with
    | S754_zero s => S754_zero (f s)
    | S754_infinity s => S754_infinity (f s)
    | S754_nan => S754_nan
    | S754_finite s m e => S754_finite (f s) m e
    end.
Proof.
  unfold decode. intros -> -> ->.
  generalize (sign_bit b), (exponent_field b), (mantissa_field b). intros s e m.
  destruct (e =? 0); [now destruct m|].
  destruct (e =? 0x7FF); [now destruct (m =? 0)|].
  now destruct (m + 2 ^ 52).
Qed.

Lemma decode_ieee_neg x : decode (ieee_neg x) = SFopp (decode x).
Proof.
  destruct (ieee_neg_fields x) as (Hs & He & Hm).
  rewrite (decode_of_fields _ x negb Hs He Hm). now destruct (decode x).
Qed.

Lemma decode_fabs x : decode (fabs x) = SFabs (decode x).
Proof.
  destruct (fabs_fields x) as (Hs & He & Hm).
  rewrite (decode_of_fields _ x (fun _ => false) Hs He Hm). now destruct (decode x).
Qed.

Lemma classify_spec_fields a b :
  exponent_field a = exponent_field b -> mantissa_field a = mantissa_field b ->
  classify_spec a = classify_spec b.
Proof. unfold classify_spec. now intros -> ->. Qed.

Lemma dbl_is_nan_fields a b :
  exponent_field a = exponent_field b -> mantissa_field a = mantissa_field b ->
  dbl_is_nan a = dbl_is_nan b.
Proof. unfold dbl_is_nan. now intros -> ->. Qed.


Lemma SFcompare_opp x y : SFcompare (SFopp x) (SFopp y) = SFcompare y x.
Proof.
  destruct x as [[]|[]| |[] m1 e1], y as [[]|[]| |[] m2 e2]; simpl; try reflexivity;
    rewrite (Z.compare_antisym e1 e2); destruct (e1 ?= e2); simpl; try reflexivity;
    change (PosDef.Pos.compare_cont Eq m2 m1) with (Pos.compare m2 m1);
    change (PosDef.Pos.compare_cont Eq m1 m2) with (Pos.compare m1 m2);
    rewrite (Pos.compare_antisym m1 m2); try reflexivity;
    now rewrite CompOpp_involutive.
Qed.

(** ** Negation *)

Lemma caml_neg_float_run T O st vf f :
  boxed T st vf f ->
  caml_neg_float T O vf st = caml_copy_double T (op_neg O f) st.
Proof. unfold boxed, caml_neg_float, mbind, prim_bind. now intros ->. Qed.



(** X8: in a hosted build negation reverses the order: the three-way
    comparison of the negated floats returns what the comparison of the
    originals returns with the operands exchanged. *)
Theorem neg_float_reverses_order (T : target) (L : libc) (C99 : option c99_libm)
    (st : runtime) (vf vg : value) (f g : double) :
  assert_double_size T -> boxed T st vf f -> boxed T st vg g ->
  exists nf st1 ng st2 r,
    caml_neg_float T (HostedOps L C99) vf st = Done nf st1 /\
    caml_neg_float T (HostedOps L C99) vg st1 = Done ng st2 /\
    compare_returns T (Hosted L) st vg vf r /\
    compare_returns T (Hosted L) st2 nf ng r.
Proof.
  intros HT Hf Hg.
  destruct (caml_copy_double_done T st (ieee_neg f) HT) as (nf & st1 & H1 & Hb1 & _ & Hfr1).
  destruct (caml_copy_double_done T st1 (ieee_neg g) HT) as (ng & st2 & H2 & Hb2 & _ & Hfr2).
  exists nf, st1, ng, st2, (compare_code (SFcompare (decode g) (decode f))).
  rewrite (caml_neg_float_run T _ st vf f Hf).
  rewrite (caml_neg_float_run T _ st1 vg g (Hfr1 _ _ Hg)).
  split; [exact H1|]. split; [exact H2|]. split.
  - now apply caml_float_compare_hosted.
  - rewrite <- SFcompare_opp, <- !decode_ieee_neg.
    apply caml_float_compare_hosted; auto.
Qed.

Lemma neg_float_reverses_order_witness :
  exists nf st1 ng st2 r,
    caml_neg_float amd64 hosted_ops (Ptr 0) one_nan_zero = Done nf st1 /\
    caml_neg_float amd64 hosted_ops (Ptr 2) st1 = Done ng st2 /\
    compare_returns amd64 hosted one_nan_zero (Ptr 2) (Ptr 0) r /\
    compare_returns amd64 hosted st2 nf ng r.
Proof.
  assert (HT : assert_double_size amd64) by (intros H; discriminate H).
  exact (neg_float_reverses_order amd64 (c_library false true) None one_nan_zero
           (Ptr 0) (Ptr 2) one plus_zero HT eq_refl eq_refl).
Defined.

(** X9: in a hosted build negation does not change the class of a
    float: zeros stay zeros, infinities infinite and a NaN stays a NaN. *)
Theorem neg_float_keeps_class (T : target) (L : libc) (C99 : option c99_libm)
    (st : runtime) (vf : value) (f : double) :
  assert_double_size T -> boxed T st vf f ->
  exists nf st1 c,
    caml_neg_float T (HostedOps L C99) vf st = Done nf st1 /\
    classify_returns T (Hosted L) st vf c /\
    classify_returns T (Hosted L) st1 nf c.
Proof.
  intros HT Hf.
  destruct (caml_copy_double_done T st (ieee_neg f) HT) as (nf & st1 & H1 & Hb1 & _).
  exists nf, st1, (classify_spec f).
  rewrite (caml_neg_float_run T _ st vf f Hf).
  split; [exact H1|]. split; [now apply classify_float_hosted|].
  destruct (ieee_neg_fields f) as (_ & He & Hm).
  rewrite <- (classify_spec_fields _ _ He Hm).
  now apply classify_float_hosted.
Qed.

Lemma neg_float_keeps_class_witness :
  exists nf st1 c,
    caml_neg_float amd64 hosted_ops (Ptr 0) (heap_of_double plus_infinity) = Done nf st1 /\
    classify_returns amd64 hosted (heap_of_double plus_infinity) (Ptr 0) c /\
    classify_returns amd64 hosted st1 nf c.
Proof.
  assert (HT : assert_double_size amd64) by (intros H; discriminate H).
  exact (neg_float_keeps_class amd64 (c_library false true) None
           (heap_of_double plus_infinity) (Ptr 0) plus_infinity HT eq_refl).
Defined.

(** ** The stand-in for [copysign] *)

Lemma two_int32_as_double_join T h l : two_int32_as_double T h l = join32 h l.
Proof.
  unfold two_int32_as_double, high_word_first.
  now destruct (ARCH_BIG_ENDIAN T || ARM_OLD_ABI T).
Qed.

Lemma caml_copysign_fallback T x y : caml_copysign T None x y = copysign x y.
Proof.
  unfold caml_copysign. rewrite !double_as_two_int32_hi_lo, two_int32_as_double_join.
  unfold join32, hi32, lo32.
  change 0x7FFFFFFF with (Z.ones 31). change 0x80000000 with (2 ^ 31).
  apply Z.bits_inj'; intros n Hn.
  rewrite copysign_bits, Z.lor_spec, Z.land_spec, testbit_low32_mask by lia.
  destruct (Z.ltb_spec n 32).
  - rewrite Z.shiftl_spec_low by lia.
    replace (n =? 63) with false by (symmetry; apply Z.eqb_neq; lia).
    replace (n <? 63) with true by (symmetry; apply Z.ltb_lt; lia).
    reflexivity.
  - rewrite Z.shiftl_spec, Z.lor_spec, !Z.land_spec, !Z.shiftr_spec by lia.
    rewrite testbit_ones, Z.pow2_bits_eqb by lia.
    replace (n - 32 + 32) with n by lia.
    rewrite andb_false_r, orb_false_r.
    destruct (Z.eqb_spec n 63) as [->|Hne].
    + change (63 - 32 <? 31) with false. change (31 =? 63 - 32) with true.
      now rewrite andb_false_r, andb_true_r.
    + replace (31 =? n - 32) with false by (symmetry; apply Z.eqb_neq; lia).
      rewrite andb_false_r, orb_false_r. f_equal.
      destruct (Z.ltb_spec (n - 32) 31), (Z.ltb_spec n 63); (reflexivity || lia).
Qed.

(** X10: the function that stands in for C99's [copysign] computes,
    through the two 32-bit halves and in either word order, the same
    bit pattern as the library function: the sign bit of the second
    operand, the exponent and the mantissa of the first. *)
Theorem copysign_fallback_is_c99 (T : target) (M : c99_libm) (x y : double) :
  caml_copysign T None x y = caml_copysign T (Some M) x y /\
  sign_bit (caml_copysign T None x y) = sign_bit y /\
  exponent_field (caml_copysign T None x y) = exponent_field x /\
  mantissa_field (caml_copysign T None x y) = mantissa_field x.
Proof.
  rewrite caml_copysign_fallback. split; [reflexivity|]. apply copysign_fields.
Qed.

Lemma testbit_double_high x n : is_double x -> 64 <= n -> Z.testbit x n = false.
Proof.
  intros Hx Hn. rewrite <- (Z.mod_small x (2 ^ 64)) by exact Hx.
  apply Z.mod_pow2_bits_high. lia.
Qed.

Lemma copysign_same_sign x y :
  is_double x -> sign_bit y = sign_bit x -> copysign x y = x.
Proof.
  intros Hx Hs. apply Z.bits_inj'; intros n Hn.
  rewrite copysign_bits by lia. unfold sign_bit in Hs.
  destruct (Z.eqb_spec n 63) as [->|Hne]; [exact Hs|].
  destruct (Z.ltb_spec n 63); [apply andb_true_r|].
  rewrite andb_false_r. symmetry. apply testbit_double_high; [exact Hx | lia].
Qed.

Lemma caml_copysign_float_run T L C99 st vf vg f g :
  boxed T st vf f -> boxed T st vg g ->
  caml_copysign_float T (HostedOps L C99) vf vg st
  = caml_copy_double T (copysign f g) st.
Proof.
  unfold boxed, caml_copysign_float, mbind, prim_bind. intros -> ->.
  destruct C99; [reflexivity|]. now rewrite caml_copysign_fallback.
Qed.

(** X11: in a hosted build, with or without C99 library,
    [caml_copysign_float] boxes a float that has the sign of the second
    operand and the class of the first; when both signs agree it is the
    first operand, bit for bit. *)
Theorem copysign_float_sign_and_class (T : target) (L : libc)
    (C99 : option c99_libm) (st : runtime) (vf vg : value) (f g : double) :
  assert_double_size T -> boxed T st vf f -> boxed T st vg g ->
  exists v st1 r,
    caml_copysign_float T (HostedOps L C99) vf vg st = Done v st1 /\
    boxed T st1 v r /\
    sign_bit r = sign_bit g /\
    classify_returns T (Hosted L) st1 v (classify_spec f) /\
    (is_double f -> sign_bit g = sign_bit f -> r = f).
Proof.
  intros HT Hf Hg.
  destruct (caml_copy_double_done T st (copysign f g) HT) as (v & st1 & H1 & Hb1 & _).
  exists v, st1, (copysign f g).
  rewrite (caml_copysign_float_run T L C99 st vf vg f g Hf Hg).
  destruct (copysign_fields f g) as (Hs & He & Hm).
  split; [exact H1|]. split; [exact Hb1|]. split; [exact Hs|]. split.
  - rewrite <- (classify_spec_fields _ _ He Hm). now apply classify_float_hosted.
  - apply copysign_same_sign.
Qed.

Lemma copysign_float_sign_and_class_witness :
  exists v st1 r,
    caml_copysign_float sparc32 hosted_ops (Ptr 0) (Ptr 1)
      {| heap := [Words Double_tag [0x40080000; 0]; Words Double_tag [0xBFF00000; 0]];
         stat_live := 0 |} = Done v st1 /\
    boxed sparc32 st1 v r /\
    sign_bit r = sign_bit minus_one /\
    classify_returns sparc32 hosted st1 v (classify_spec three) /\
    (is_double three -> sign_bit minus_one = sign_bit three -> r = three).
Proof.
  assert (HT : assert_double_size sparc32) by (intros _; reflexivity).
  exact (copysign_float_sign_and_class sparc32 (c_library false true) None
           {| heap := [Words Double_tag [0x40080000; 0]; Words Double_tag [0xBFF00000; 0]];
              stat_live := 0 |}
           (Ptr 0) (Ptr 1) three minus_one HT eq_refl eq_refl).
Defined.

(** ** Absolute value *)

Lemma fabs_ieee_neg x : fabs (ieee_neg x) = fabs x.
Proof.
  apply Z.bits_inj'; intros n Hn.
  rewrite !fabs_bits, ieee_neg_bits by lia.
  destruct (Z.ltb_spec n 63); [|now rewrite !andb_false_r].
  replace (n =? 63) with false by (symmetry; apply Z.eqb_neq; lia).
  now rewrite xorb_false_r.
Qed.

Lemma caml_abs_float_run T L C99 st vf f :
  boxed T st vf f ->
  caml_abs_float T (HostedOps L C99) vf st = caml_copy_double T (fabs f) st.
Proof. unfold boxed, caml_abs_float, mbind, prim_bind. now intros ->. Qed.

(** X12: in a hosted build the absolute values of a float and of its
    negation are the same bit pattern, with the sign bit clear and the
    class of the float. *)
Theorem abs_float_of_negation (T : target) (L : libc) (C99 : option c99_libm)
    (st : runtime) (vf : value) (f : double) :
  assert_double_size T -> boxed T st vf f ->
  exists va st1 nf st2 vb st3 a,
    caml_abs_float T (HostedOps L C99) vf st = Done va st1 /\
    caml_neg_float T (HostedOps L C99) vf st1 = Done nf st2 /\
    caml_abs_float T (HostedOps L C99) nf st2 = Done vb st3 /\
    boxed T st3 va a /\ boxed T st3 vb a /\
    sign_bit a = false /\ classify_spec a = classify_spec f.
Proof.
  intros HT Hf.
  destruct (caml_copy_double_done T st (fabs f) HT) as (va & st1 & H1 & Hb1 & _ & Hfr1).
  destruct (caml_copy_double_done T st1 (ieee_neg f) HT) as (nf & st2 & H2 & Hb2 & _ & Hfr2).
  destruct (caml_copy_double_done T st2 (fabs (ieee_neg f)) HT)
    as (vb & st3 & H3 & Hb3 & _ & Hfr3).
  exists va, st1, nf, st2, vb, st3, (fabs f).
  rewrite (caml_abs_float_run T L C99 st vf f Hf).
  rewrite (caml_neg_float_run T _ st1 vf f (Hfr1 _ _ Hf)).
  rewrite (caml_abs_float_run T L C99 st2 nf _ Hb2).
  rewrite fabs_ieee_neg in *.
  destruct (fabs_fields f) as (Hs & He & Hm).
  repeat split; auto. now apply classify_spec_fields.
Qed.

Lemma abs_float_of_negation_witness :
  exists va st1 nf st2 vb st3 a,
    caml_abs_float amd64 hosted_ops (Ptr 0) (heap_of_double minus_one) = Done va st1 /\
    caml_neg_float amd64 hosted_ops (Ptr 0) st1 = Done nf st2 /\
    caml_abs_float amd64 hosted_ops nf st2 = Done vb st3 /\
    boxed amd64 st3 va a /\ boxed amd64 st3 vb a /\
    sign_bit a = false /\ classify_spec a = classify_spec minus_one.
Proof.
  assert (HT : assert_double_size amd64) by (intros H; discriminate H).
  exact (abs_float_of_negation amd64 (c_library false true) None
           (heap_of_double minus_one) (Ptr 0) minus_one HT eq_refl).
Defined.

(** ** The stand-in for [hypot] *)

Lemma ieee_eq_self x : ieee_eq x x = negb (dbl_is_nan x).
Proof.
  unfold ieee_eq, SFeqb. destruct (dbl_is_nan x) eqn:Hn.
  - apply decode_nan in Hn. now rewrite Hn.
  - apply not_nan_decode in Hn. now rewrite SFcompare_refl.
Qed.

Lemma classify_zero_decode x :
  classify_spec x = FP_zero -> decode x = S754_zero (sign_bit x).
Proof.
  unfold classify_spec, decode.
  generalize (exponent_field x), (mantissa_field x), (sign_bit x). intros e m s.
  destruct (Z.eqb_spec e 0) as [->|He]; cbn [andb].
  - destruct (Z.eqb_spec m 0) as [->|Hm]; [reflexivity | discriminate].
  - destruct (e =? 0x7FF); cbn [andb]; [|discriminate].
    destruct (m =? 0); discriminate.
Qed.

Lemma ieee_eq_neg x : ieee_eq (ieee_neg x) (ieee_neg x) = ieee_eq x x.
Proof.
  rewrite !ieee_eq_self. destruct (ieee_neg_fields x) as (_ & He & Hm).
  now rewrite (dbl_is_nan_fields _ _ He Hm).
Qed.

(** X13: the function that stands in for C99's [hypot] returns its first
    operand when that is a NaN, else its second operand when that is a
    NaN (also when the first is an infinity), and +0.0 when both
    operands are zeros of either sign. *)
Theorem hypot_fallback_nan_and_zero (x y : double) :
  (dbl_is_nan x = true -> caml_hypot None x y = x) /\
  (dbl_is_nan x = false -> dbl_is_nan y = true -> caml_hypot None x y = y) /\
  (classify_spec x = FP_zero -> classify_spec y = FP_zero ->
   caml_hypot None x y = plus_zero).
Proof.
  unfold caml_hypot. rewrite !ieee_eq_self, !negb_involutive.
  split; [|split].
  - now intros ->.
  - now intros -> ->.
  - intros Hx Hy.
    assert (Hnx : dbl_is_nan x = false).
    { destruct (dbl_is_nan x) eqn:E; [|reflexivity].
      apply decode_nan in E. rewrite (classify_zero_decode x Hx) in E. discriminate. }
    assert (Hny : dbl_is_nan y = false).
    { destruct (dbl_is_nan y) eqn:E; [|reflexivity].
      apply decode_nan in E. rewrite (classify_zero_decode y Hy) in E. discriminate. }
    rewrite Hnx, Hny.
    unfold ieee_lt, ieee_eq, SFltb, SFeqb.
    rewrite !decode_fabs, (classify_zero_decode x Hx), (classify_zero_decode y Hy).
    cbn [SFabs SFcompare].
    rewrite decode_fabs, (classify_zero_decode x Hx). reflexivity.
Qed.

Lemma hypot_fallback_nan_and_zero_witness :
  caml_hypot None quiet_nan one = quiet_nan /\
  caml_hypot None plus_infinity quiet_nan = quiet_nan /\
  caml_hypot None minus_zero plus_zero = plus_zero.
Proof.
  destruct (hypot_fallback_nan_and_zero quiet_nan one) as (H1 & _).
  destruct (hypot_fallback_nan_and_zero plus_infinity quiet_nan) as (_ & H2 & _).
  destruct (hypot_fallback_nan_and_zero minus_zero plus_zero) as (_ & _ & H3).
  split; [exact (H1 eq_refl)|]. split; [exact (H2 eq_refl eq_refl)|].
  exact (H3 eq_refl eq_refl).
Defined.

(** X14: the result of the stand-in for [hypot] does not depend on the
    signs of operands that are not NaN. *)
Theorem hypot_fallback_ignores_signs (x y : double) :
  dbl_is_nan x = false -> dbl_is_nan y = false ->
  caml_hypot None (ieee_neg x) y = caml_hypot None x y /\
  caml_hypot None x (ieee_neg y) = caml_hypot None x y.
Proof.
  intros Hx Hy. unfold caml_hypot.
  rewrite !ieee_eq_neg, !fabs_ieee_neg, !ieee_eq_self, Hx, Hy. cbn [negb].
  split; reflexivity.
Qed.

Lemma hypot_fallback_ignores_signs_witness :
  caml_hypot None (ieee_neg three) four = caml_hypot None three four /\
  caml_hypot None three (ieee_neg four) = caml_hypot None three four.
Proof.
  exact (hypot_fallback_ignores_signs three four eq_refl eq_refl).
Defined.
Lemma low_bits_of_fields a n :
  0 <= n < 63 ->
  Z.testbit a n
  = if n <? 52 then Z.testbit (mantissa_field a) n
    else Z.testbit (exponent_field a) (n - 52).
Proof.
  intros Hn. unfold mantissa_field, exponent_field. change 0x7FF with (Z.ones 11).
  destruct (Z.ltb_spec n 52).
  - rewrite Z.land_spec, testbit_ones by lia.
    replace (n <? 52) with true by (symmetry; apply Z.ltb_lt; lia).
    now rewrite andb_true_r.
  - rewrite Z.land_spec, Z.shiftr_spec, testbit_ones by lia.
    replace (n - 52 <? 11) with true by (symmetry; apply Z.ltb_lt; lia).
    rewrite andb_true_r. f_equal. lia.
Qed.

Lemma fabs_of_fields x y :
  exponent_field x = exponent_field y -> mantissa_field x = mantissa_field y ->
  fabs x = fabs y.
Proof.
  intros He Hm. apply Z.bits_inj'; intros n Hn. rewrite !fabs_bits by lia.
  destruct (Z.ltb_spec n 63); [|now rewrite !andb_false_r].
  rewrite !andb_true_r, (low_bits_of_fields x), (low_bits_of_fields y) by lia.
  now rewrite He, Hm.
Qed.

Lemma finite_compare_eq m1 e1 m2 e2 :
  SFcompare (S754_finite false m1 e1) (S754_finite false m2 e2) = Some Eq ->
  e1 = e2 /\ m1 = m2.
Proof.
  cbn [SFcompare]. change (PosDef.Pos.compare_cont Eq) with Pos.compare.
  destruct (Z.compare_spec e1 e2); try discriminate.
  destruct (Pos.compare_spec m1 m2); try discriminate. auto.
Qed.

Lemma decode_equal_fields a b :
  sign_bit a = false -> sign_bit b = false ->
  SFcompare (decode a) (decode b) = Some Eq ->
  exponent_field a = exponent_field b /\ mantissa_field a = mantissa_field b.
Proof.
  intros Ha Hb. unfold decode. rewrite Ha, Hb.
  pose proof (exponent_field_range a) as Hea. pose proof (mantissa_field_range a) as Hma.
  pose proof (exponent_field_range b) as Heb. pose proof (mantissa_field_range b) as Hmb.
  revert Hea Hma Heb Hmb.
  generalize (exponent_field a), (mantissa_field a), (exponent_field b), (mantissa_field b).
  intros e1 m1 e2 m2 He1 Hm1 He2 Hm2.
  assert (Hfin : forall p1 x1 p2 x2,
            SFcompare (S754_finite false p1 x1) (S754_finite false p2 x2) = Some Eq ->
            x1 = x2 /\ Zpos p1 = Zpos p2).
  { intros p1 x1 p2 x2 H. apply finite_compare_eq in H as [-> ->]. auto. }
  destruct (Z.eqb_spec e1 0) as [E1|E1]; [|destruct (Z.eqb_spec e1 0x7FF) as [F1|F1]];
    (destruct (Z.eqb_spec e2 0) as [E2|E2]; [|destruct (Z.eqb_spec e2 0x7FF) as [F2|F2]]).
  all: try (destruct (Z.eqb_spec m1 0) as [G1|G1]).
  all: try (destruct (Z.eqb_spec m2 0) as [G2|G2]).
  all: try (destruct (m1 + 2 ^ 52) as [|q1|q1] eqn:Q1; [lia| |lia]).
  all: try (destruct (m2 + 2 ^ 52) as [|q2|q2] eqn:Q2; [lia| |lia]).
  all: try (destruct m1 as [|p1|p1]; [| |lia]).
  all: try (destruct m2 as [|p2|p2]; [| |lia]).
  all: intros H; try discriminate H.
  all: try (apply Hfin in H as [Hx Hp]).
  all: split; lia.
Qed.

Lemma fabs_not_nan x : dbl_is_nan x = false -> decode (fabs x) <> S754_nan.
Proof.
  intros Hx. apply not_nan_decode.
  destruct (fabs_fields x) as (_ & He & Hm).
  now rewrite (dbl_is_nan_fields _ _ He Hm).
Qed.

(** X15: for operands that are not NaN the stand-in for [hypot] is
    symmetric, bit for bit. *)
Theorem hypot_fallback_symmetric (x y : double) :
  dbl_is_nan x = false -> dbl_is_nan y = false ->
  caml_hypot None x y = caml_hypot None y x.
Proof.
  intros Hx Hy. unfold caml_hypot.
  rewrite !ieee_eq_self, Hx, Hy. cbn [negb].
  pose proof (fabs_not_nan x Hx) as Hnx. pose proof (fabs_not_nan y Hy) as Hny.
  destruct (SFcompare_ordered _ _ Hnx Hny) as [c Hc].
  pose proof (SFcompare_antisym (decode (fabs x)) (decode (fabs y))) as Hanti.
  rewrite Hc in Hanti. cbn [option_map] in Hanti.
  unfold ieee_lt, SFltb. rewrite Hc, Hanti.
  destruct c; cbn [CompOpp]; try reflexivity.
  destruct (fabs_fields x) as (Hsx & Hex & Hmx).
  destruct (fabs_fields y) as (Hsy & Hey & Hmy).
  destruct (decode_equal_fields _ _ Hsx Hsy Hc) as [He Hm].
  rewrite Hex, Hey in He. rewrite Hmx, Hmy in Hm.
  now rewrite (fabs_of_fields x y He Hm).
Qed.

Lemma hypot_fallback_symmetric_witness :
  caml_hypot None three minus_one = caml_hypot None minus_one three.
Proof. exact (hypot_fallback_symmetric three minus_one eq_refl eq_refl). Defined.

(** ** More on parsing *)






(** X17: parsing the slice that covers a whole string is parsing the
    string; for the empty string both fail. *)
Theorem substring_of_whole_string (T : target) (B : backend) (st : runtime)
    (vs : value) (s : string) :
  String_val vs st = Done s st ->
  is_intnat T (Z.of_nat (String.length s)) ->
  caml_float_of_substring T B vs (Val_long 0)
    (Val_long (Z.of_nat (String.length s))) st
  = caml_float_of_string T B vs st.
Proof.
  intros Hs Hlen.
  destruct (wordsize_pow T) as [HM0 HM].
  assert (Hfit : string_fits T s) by (unfold string_fits, is_intnat in *; lia).
  assert (H0 : is_intnat T 0) by (unfold is_intnat; lia).
  rewrite (caml_float_of_string_cleaned T B st vs s Hs).
  destruct s as [|c s'] eqn:Es.
  - rewrite (caml_float_of_substring_run _ _ _ _ _ _ _ Hs). cbv zeta.
    cbn [String.length Z.of_nat Z.gtb Z.compare andb].
    rewrite andb_false_r. now apply parse_slice_cleaned.
  - rewrite <- Es in *.
    rewrite (caml_float_of_substring_cleaned T B st vs s 0 _ Hs H0 Hlen Hfit).
    + unfold slice. rewrite Nat2Z.id. cbn [Z.to_nat]. now rewrite substring_full.
    + unfold valid_slice. rewrite Es. cbn [String.length]. lia.
Qed.

Lemma substring_of_whole_string_witness :
  caml_float_of_substring amd64 hosted (Ptr 0) (Val_long 0) (Val_long 4)
    (heap_of_string "3.14")
  = caml_float_of_string amd64 hosted (Ptr 0) (heap_of_string "3.14").
Proof.
  apply (substring_of_whole_string amd64 hosted (heap_of_string "3.14") (Ptr 0)
           "3.14" eq_refl).
  vm_compute. intuition congruence.
Defined.

(** X18: a text that holds nothing but separators, the empty text
    included, is rejected by every back-end. *)
Theorem separators_only_fails (T : target) (B : backend) (st : runtime)
    (vs : value) (s : string) :
  String_val vs st = Done s st ->
  (forall c, In c (list_ascii_of_string s) -> c = "_"%char) ->
  fails_with (caml_float_of_string T B vs st) "float_of_string" st.
Proof.
  intros Hs Hall. unfold fails_with.
  rewrite (caml_float_of_string_cleaned T B st vs s Hs).
  apply convert_cleaned_fails. left.
  destruct (delete_separators s) as [|c r] eqn:E; [reflexivity|].
  assert (Hin : In c (list_ascii_of_string (delete_separators s)))
    by (rewrite E; now left).
  apply delete_separators_chars in Hin as [Hin Hne].
  now apply Hall in Hin.
Qed.

Lemma separators_only_fails_witness :
  fails_with (caml_float_of_string amd64 hosted (Ptr 0) (heap_of_string "__"))
    "float_of_string" (heap_of_string "__") /\
  fails_with (caml_float_of_string amd64 kernel (Ptr 0) (heap_of_string ""))
    "float_of_string" (heap_of_string "").
Proof.
  split.
  - apply (separators_only_fails amd64 hosted (heap_of_string "__") (Ptr 0) "__" eq_refl).
    intros c [<-|[<-|[]]]; reflexivity.
  - apply (separators_only_fails amd64 kernel (heap_of_string "") (Ptr 0) "" eq_refl).
    intros c [].
Defined.

Lemma c_string_nul s :
  In NUL (list_ascii_of_string s) ->
  (String.length (c_string s) < String.length s)%nat.
Proof.
  induction s as [|c s IH]; simpl; [intros []|].
  destruct (Ascii.eqb c NUL) eqn:E; simpl; [lia|].
  intros [->|Hin]; [now rewrite Ascii.eqb_refl in E|].
  apply IH in Hin. lia.
Qed.

Lemma c_strtod_within s : (snd (c_strtod s) <= String.length s)%nat.
Proof.
  destruct (c_strtod s) as [d k] eqn:E. simpl.
  apply c_strtod_consumes in E as [->|(w & body & rest & -> & -> & _)]; [lia|].
  rewrite !string_length_app. lia.
Qed.

(** X19: with a parser that does not read beyond the end of the C string
    it is given, a text with a NUL byte in it is rejected, whatever
    stands in front of the NUL. *)
Theorem embedded_nul_fails (T : target) (L : libc) (st : runtime)
    (vs : value) (s : string) :
  (forall t, (snd (strtod L t) <= String.length t)%nat) ->
  String_val vs st = Done s st ->
  In NUL (list_ascii_of_string s) ->
  fails_with (caml_float_of_string T (Hosted L) vs st) "float_of_string" st.
Proof.
  intros Hparser Hs Hnul. unfold fails_with.
  rewrite (caml_float_of_string_cleaned T _ st vs s Hs).
  apply convert_cleaned_fails. right. cbn [native_strtod].
  assert (Hin : In NUL (list_ascii_of_string (delete_separators s)))
    by (apply delete_separators_chars; split; [exact Hnul | discriminate]).
  apply c_string_nul in Hin.
  specialize (Hparser (c_string (delete_separators s))). lia.
Qed.

Lemma embedded_nul_fails_witness :
  fails_with (caml_float_of_string amd64 hosted (Ptr 0) (heap_of_string text_with_nul))
    "float_of_string" (heap_of_string text_with_nul).
Proof.
  apply (embedded_nul_fails amd64 (c_library false true) (heap_of_string text_with_nul)
           (Ptr 0) text_with_nul).
  - exact c_strtod_within.
  - reflexivity.
  - right. left. reflexivity.
Defined.

(** ** More on formatting *)





Lemma not_finite_cases d :
  isfinite d = false ->
  (dbl_is_nan d = true /\ isnan d = true) \/
  (dbl_is_inf d = true /\ isnan d = false /\ decode d = S754_infinity (sign_bit d)).
Proof.
  unfold isfinite, isnan. intros H.
  destruct (decode d) eqn:Hd; try discriminate.
  - right. revert Hd. unfold decode, dbl_is_inf.
    pose proof (mantissa_field_range d) as Hm. revert Hm.
    generalize (exponent_field d), (mantissa_field d), (sign_bit d). intros e m b Hm.
    destruct (Z.eqb_spec e 0); [destruct m; discriminate|].
    destruct (Z.eqb_spec e 0x7FF).
    + destruct (Z.eqb_spec m 0); [|discriminate]. intros [= ->]. auto.
    + destruct (m + 2 ^ 52); discriminate.
  - left. split; [|reflexivity]. now apply decode_nan.
Qed.

Lemma classify_spec_nan d : dbl_is_nan d = true -> classify_spec d = FP_nan.
Proof.
  unfold dbl_is_nan, classify_spec. intros H.
  apply andb_true_iff in H as [He Hm]. apply Z.eqb_eq in He. rewrite He.
  apply negb_true_iff in Hm. now rewrite Hm.
Qed.

Lemma classify_spec_inf d : dbl_is_inf d = true -> classify_spec d = FP_infinite.
Proof.
  unfold dbl_is_inf, classify_spec. intros H.
  apply andb_true_iff in H as [He Hm]. apply Z.eqb_eq in He. now rewrite He, Hm.
Qed.

Lemma float_of_string_fresh T L st text d :
  assert_double_size T ->
  strtod L = c_strtod ->
  delete_separators text <> EmptyString ->
  c_strtod (c_string (delete_separators text))
  = (d, String.length (delete_separators text)) ->
  returns_double T
    (caml_float_of_string T (Hosted L) (Ptr (length (heap st)))
       {| heap := heap st ++ [Bytes text]; stat_live := stat_live st |}) d.
Proof.
  intros HT HL Hne Hrun.
  rewrite (caml_float_of_string_cleaned T _ _ _ text).
  - replace d with (fst (native_strtod (Hosted L) (c_string (delete_separators text))))
      by (cbn [native_strtod]; now rewrite HL, Hrun).
    apply convert_cleaned_succeeds; [exact HT | exact Hne|].
    cbn [native_strtod]. now rewrite HL, Hrun.
  - unfold String_val, mbind, prim_bind. now rewrite read_fresh_block.
Qed.

(** X21: in a build with a broken printf and the parser of the C
    library, the text that [caml_format_float] makes for a float that is
    not finite parses back, through [caml_float_of_string], to a float
    of the same class, and to an infinity of the same sign. *)
Theorem non_finite_text_round_trip (T : target) (L : libc) (st : runtime)
    (fmt arg : value) (d : double) :
  assert_double_size T ->
  HAS_BROKEN_PRINTF L = true -> strtod L = c_strtod ->
  boxed T st arg d -> isfinite d = false ->
  exists vs st1 r,
    caml_format_float T (Hosted L) fmt arg st = Done vs st1 /\
    returns_double T (caml_float_of_string T (Hosted L) vs st1) r /\
    classify_spec r = classify_spec d /\
    (dbl_is_inf d = true -> sign_bit r = sign_bit d).
Proof.
  intros HT HB HL Hd Hfin.
  rewrite (format_float_broken_printf T L st fmt arg d HB Hd Hfin).
  destruct (not_finite_cases d Hfin) as [(Hnan & ->) | (Hinf & -> & Hdec)].
  - eexists _, _, quiet_nan. split; [reflexivity|]. split; [|split].
    + apply float_of_string_fresh; [exact HT | exact HL | discriminate | reflexivity].
    + now rewrite (classify_spec_nan d Hnan).
    + intros Hinf. unfold dbl_is_nan, dbl_is_inf in *.
      apply andb_true_iff in Hnan as [_ Hm]. apply andb_true_iff in Hinf as [_ Hm'].
      rewrite Hm' in Hm. discriminate.
  - unfold ieee_lt, SFltb. rewrite Hdec. change (decode 0) with (S754_zero false).
    cbn [SFcompare]. rewrite (classify_spec_inf d Hinf).
    destruct (sign_bit d).
    + eexists _, _, minus_infinity. split; [reflexivity|]. split; [|split; reflexivity].
      apply float_of_string_fresh; [exact HT | exact HL | discriminate | reflexivity].
    + eexists _, _, plus_infinity. split; [reflexivity|]. split; [|split; reflexivity].
      apply float_of_string_fresh; [exact HT | exact HL | discriminate | reflexivity].
Qed.

Lemma non_finite_text_round_trip_witness :
  exists vs st1 r,
    caml_format_float amd64 (Hosted (c_library true true)) (Ptr 1) (Ptr 0)
      (heap_of_format minus_infinity "%g") = Done vs st1 /\
    returns_double amd64 (caml_float_of_string amd64 (Hosted (c_library true true)) vs st1) r /\
    classify_spec r = classify_spec minus_infinity /\
    (dbl_is_inf minus_infinity = true -> sign_bit r = sign_bit minus_infinity).
Proof.
  assert (HT : assert_double_size amd64) by (intros H; discriminate H).
  exact (non_finite_text_round_trip amd64 (c_library true true)
           (heap_of_format minus_infinity "%g") (Ptr 1) (Ptr 0) minus_infinity
           HT eq_refl eq_refl eq_refl eq_refl).
Defined.

(** ** Conversions between floats and integers *)

Example int_conversion_examples :
  double_of_int 3 = three /\ double_of_int (-1) = minus_one /\
  double_of_int 9007199254740993 = 0x4340000000000000 /\
  trunc_double 0x400921FB54442D18 = Some 3 /\
  trunc_double 0xC00921FB54442D18 = Some (-3) /\
  trunc_double min_subnormal = Some 0 /\
  trunc_double 0x43E0000000000000 = Some (2 ^ 63) /\
  intnat_of_double amd64 0x43E0000000000000 = None /\
  intnat_of_double amd64 0xC3E0000000000000 = Some (- 2 ^ 63) /\
  long_of_intnat amd64 (- 2 ^ 63) = 0 /\
  trunc_double quiet_nan = None.
Proof. vm_compute. repeat split. Qed.
Lemma iter_xO_value p d : Zpos (Pos.iter xO p d) = Zpos p * 2 ^ Zpos d.
Proof.
  induction d as [|d IH] using Pos.peano_ind.
  - simpl. lia.
  - rewrite Pos.iter_succ, Pos2Z.inj_xO, IH, Pos2Z.inj_succ, Z.pow_succ_r by lia. lia.
Qed.

Lemma iter_xO_digits p d :
  Zpos (digits2_pos (Pos.iter xO p d)) = Zpos (digits2_pos p) + Zpos d.
Proof.
  induction d as [|d IH] using Pos.peano_ind.
  - simpl. lia.
  - rewrite Pos.iter_succ. cbn [digits2_pos]. rewrite Pos2Z.inj_succ, IH. lia.
Qed.

Lemma digits2_pos_bounds p :
  2 ^ (Zpos (digits2_pos p) - 1) <= Zpos p < 2 ^ Zpos (digits2_pos p).
Proof.
  rewrite digits2_pos_size.
  pose proof (Pos.size_gt p) as Hgt. pose proof (Pos.size_le p) as Hle.
  apply Pos2Z.pos_lt_pos in Hgt. apply Pos2Z.pos_le_pos in Hle.
  rewrite Pos2Z.inj_pow in Hgt, Hle. rewrite (Pos2Z.inj_xO p) in Hle.
  set (k := Zpos (Pos.size p)) in *.
  assert (Hk : 2 ^ k = 2 * 2 ^ (k - 1))
    by (rewrite <- Z.pow_succ_r by (subst k; lia); f_equal; lia).
  lia.
Qed.

(** A positive integer below 2^53 rounds to itself: the mantissa is the
    integer shifted to 53 digits. *)
Lemma binary_round_integer s p :
  Zpos p < 2 ^ 53 ->
  exists m e,
    binary_round prec emax s p 0 = S754_finite s m e /\
    2 ^ 52 <= Zpos m < 2 ^ 53 /\ -52 <= e <= 0 /\ Zpos m = Zpos p * 2 ^ (- e).
Proof.
  intros Hp. pose proof (digits2_pos_bounds p) as Hd.
  set (k := Zpos (digits2_pos p)) in *.
  assert (Hk : 1 <= k <= 53).
  { split; [subst k; lia|].
    destruct (Z.le_gt_cases k 53) as [H|H]; [exact H|].
    assert (2 ^ 53 <= 2 ^ (k - 1)) by (apply Z.pow_le_mono_r; lia). lia. }
  assert (Haux : forall m e,
            Zpos (digits2_pos m) = 53 -> -52 <= e <= 0 ->
            binary_round_aux prec emax s (Zpos m) e loc_Exact = S754_finite s m e).
  { intros m e Hm He. unfold binary_round_aux, shr_fexp, fexp, emin, prec, emax.
    cbn [Zdigits2]. rewrite Hm.
    replace (Z.max (53 + e - 53) (3 - 1024 - 53) - e) with 0 by lia.
    cbn [shr shr_record_of_loc shr_m loc_of_shr_record round_nearest_even Zdigits2].
    rewrite Hm.
    replace (Z.max (53 + e - 53) (3 - 1024 - 53) - e) with 0 by lia.
    cbn [shr shr_record_of_loc shr_m].
    destruct (Z.leb_spec e (1024 - 53)); [reflexivity | lia]. }
  unfold binary_round, shl_align, fexp, emin. fold k.
  replace (Z.max (k + 0 - prec) (3 - emax - prec) - 0) with (k - 53)
    by (unfold prec, emax; lia).
  destruct (k - 53) as [|d|d] eqn:Hkd; [| lia |].
  - exists p, 0. split; [apply Haux; lia|].
    assert (k = 53) by lia. replace (k - 1) with 52 in Hd by lia.
    repeat split; try lia.
  - exists (Pos.iter xO p d), (Z.max (k + 0 - prec) (3 - emax - prec)).
    replace (Z.max (k + 0 - prec) (3 - emax - prec)) with (Zneg d)
      by (unfold prec, emax; lia).
    assert (Hd' : Zpos d = 53 - k) by lia.
    split; [apply Haux; [rewrite iter_xO_digits; fold k; lia | lia]|].
    rewrite iter_xO_value. change (- Zneg d) with (Zpos d). rewrite Hd'.
    assert (Hpow : 2 ^ (k - 1) * 2 ^ (53 - k) = 2 ^ 52)
      by (rewrite <- Z.pow_add_r by lia; f_equal; lia).
    assert (Hpow' : 2 ^ k * 2 ^ (53 - k) = 2 ^ 53)
      by (rewrite <- Z.pow_add_r by lia; f_equal; lia).
    assert (0 < 2 ^ (53 - k)) by (apply Z.pow_pos_nonneg; lia).
    repeat split; try lia; nia.
Qed.
Lemma testbit_high x k n : 0 <= x < 2 ^ k -> 0 <= k <= n -> Z.testbit x n = false.
Proof.
  intros Hx Hn. rewrite <- (Z.mod_small x (2 ^ k)) by exact Hx.
  apply Z.mod_pow2_bits_high. lia.
Qed.

Lemma testbit_sign_mask_of s n :
  0 <= n -> Z.testbit (sign_mask s) n = s && (n =? 63).
Proof.
  intros Hn. unfold sign_mask. destruct s; [|apply Z.bits_0].
  change (Z.shiftl 1 63) with (2 ^ 63). rewrite Z.pow2_bits_eqb by lia. apply Z.eqb_sym.
Qed.

(** The fields of a pattern put together from a sign, an exponent field
    and a mantissa field. *)
Lemma fields_of_parts s E M :
  0 <= E < 2 ^ 11 -> 0 <= M < 2 ^ 52 ->
  let d := Z.lor (sign_mask s) (Z.lor (Z.shiftl E 52) M) in
  sign_bit d = s /\ exponent_field d = E /\ mantissa_field d = M.
Proof.
  intros HE HM d. subst d. unfold sign_bit, exponent_field, mantissa_field.
  change 0x7FF with (Z.ones 11).
  split; [|split].
  - rewrite !Z.lor_spec, testbit_sign_mask_of, Z.shiftl_spec by lia.
    rewrite (testbit_high E 11), (testbit_high M 52) by lia.
    now rewrite andb_true_r, !orb_false_r.
  - apply Z.bits_inj'; intros n Hn.
    rewrite Z.land_spec, Z.shiftr_spec, !Z.lor_spec, testbit_sign_mask_of,
      Z.shiftl_spec, testbit_ones by lia.
    rewrite (testbit_high M 52) by lia. replace (n + 52 - 52) with n by lia.
    rewrite orb_false_r.
    destruct (Z.ltb_spec n 11).
    + replace (n + 52 =? 63) with false by (symmetry; apply Z.eqb_neq; lia).
      now rewrite andb_false_r, andb_true_r.
    + rewrite andb_false_r. symmetry. apply (testbit_high E 11); lia.
  - apply Z.bits_inj'; intros n Hn.
    rewrite Z.land_spec, !Z.lor_spec, testbit_sign_mask_of, testbit_ones by lia.
    destruct (Z.ltb_spec n 52).
    + rewrite Z.shiftl_spec_low by lia.
      replace (n =? 63) with false by (symmetry; apply Z.eqb_neq; lia).
      now rewrite andb_false_r, andb_true_r.
    + rewrite andb_false_r. symmetry. apply (testbit_high M 52); lia.
Qed.

Lemma decode_encode_normal s m e :
  2 ^ 52 <= Zpos m < 2 ^ 53 -> -1074 <= e <= 971 ->
  decode (encode (S754_finite s m e)) = S754_finite s m e.
Proof.
  intros Hm He. unfold encode.
  destruct (Z.ltb_spec (Zpos m) (2 ^ 52)); [lia|].
  destruct (fields_of_parts s (e + 1075) (Zpos m - 2 ^ 52)) as (Hs & HE & HM); [lia | lia|].
  unfold decode. rewrite Hs, HE, HM.
  destruct (Z.eqb_spec (e + 1075) 0); [lia|].
  destruct (Z.eqb_spec (e + 1075) 0x7FF); [lia|].
  replace (Zpos m - 2 ^ 52 + 2 ^ 52) with (Zpos m) by lia.
  f_equal. lia.
Qed.

(** Converting an integer of magnitude below 2^53 to a double and
    truncating the double gives the integer. *)
Lemma trunc_double_of_int n :
  - 2 ^ 53 < n < 2 ^ 53 -> trunc_double (double_of_int n) = Some n.
Proof.
  intros Hn. unfold double_of_int, trunc_double, binary_normalize.
  destruct n as [|p|p]; [reflexivity| |].
  - destruct (binary_round_integer false p) as (m & e & -> & Hm & He & Hv); [lia|].
    rewrite decode_encode_normal by lia.
    destruct (Z.leb_spec 0 e).
    + assert (e = 0) by lia. subst e. f_equal. change (2 ^ (- 0)) with 1 in Hv.
      change (2 ^ 0) with 1. lia.
    + rewrite Hv, Z.div_mul; [reflexivity|].
      apply Z.pow_nonzero; lia.
  - destruct (binary_round_integer true p) as (m & e & -> & Hm & He & Hv); [lia|].
    rewrite decode_encode_normal by lia.
    destruct (Z.leb_spec 0 e).
    + assert (e = 0) by lia. subst e. f_equal. change (2 ^ (- 0)) with 1 in Hv.
      change (2 ^ 0) with 1. lia.
    + rewrite Hv, Z.div_mul; [reflexivity|].
      apply Z.pow_nonzero; lia.
Qed.

Lemma long_of_intnat_small T n : is_long T n -> long_of_intnat T n = n.
Proof.
  unfold is_long, long_of_intnat, wordsize.
  destruct (ARCH_SIXTYFOUR T); intros Hn.
  - change (64 - 2) with 62 in *. change (64 - 1) with 63.
    rewrite Z.mod_small by lia. lia.
  - change (32 - 2) with 30 in *. change (32 - 1) with 31.
    rewrite Z.mod_small by lia. lia.
Qed.

Lemma intnat_fits_long T n : is_long T n -> intnat_fits T n = true.
Proof.
  unfold is_long, intnat_fits, wordsize.
  destruct (ARCH_SIXTYFOUR T); intros Hn; apply andb_true_iff; split;
    (apply Z.leb_le || apply Z.ltb_lt); lia.
Qed.

(** X22: in a hosted build, converting an integer of magnitude below
    2^53 to a float and the float back to an integer returns the
    integer. *)
Theorem int_float_round_trip (T : target) (L : libc) (C99 : option c99_libm)
    (st : runtime) (n : Z) :
  assert_double_size T -> is_long T n -> - 2 ^ 53 < n < 2 ^ 53 ->
  exists v st1,
    caml_float_of_int T (HostedOps L C99) (Val_long n) st = Done v st1 /\
    caml_int_of_float T (HostedOps L C99) v st1 = Done (Val_long n) st1.
Proof.
  intros HT Hlong Hn.
  destruct (caml_copy_double_done T st (double_of_int n) HT) as (v & st1 & H1 & Hb & _).
  exists v, st1. split.
  - unfold caml_float_of_int, mbind, prim_bind. now rewrite Long_val_long.
  - unfold caml_int_of_float, mbind, prim_bind. unfold boxed in Hb. rewrite Hb.
    unfold intnat_of_double.
    rewrite (trunc_double_of_int n Hn), (intnat_fits_long T n Hlong).
    cbn [lift_option mret prim_ret]. now rewrite (long_of_intnat_small T n Hlong).
Qed.

Lemma int_float_round_trip_witness :
  exists v st1,
    caml_float_of_int mipsel32 hosted_ops (Val_long (-123456789)) empty_runtime
    = Done v st1 /\
    caml_int_of_float mipsel32 hosted_ops v st1 = Done (Val_long (-123456789)) st1.
Proof.
  apply (int_float_round_trip mipsel32 (c_library false true) None empty_runtime).
  - intros _. reflexivity.
  - unfold is_long. vm_compute. intuition congruence.
  - vm_compute. intuition congruence.
Defined.
